(** * Verification of the post scheduler core

    Shallow embedding of the Go backend: the Redis scheduling queue
    ([scheduler.Queue]), the retry logic of the background worker
    ([scheduler.Worker]), the post table operations of [db.DB], the
    in-process [notifier.Notifier] with its Redis pub/sub relay, and the
    SSE handler [handlers.SSEHandler.StreamPosts]. *)

From Stdlib Require Import ZArith Lia Ascii String List Bool Permutation.
From stdpp Require Import base gmap list strings pretty.
Import ListNotations.

Open Scope Z_scope.

(** ** Go error results *)

Inductive result (A : Type) : Type :=
| Ok (a : A)
| Err (e : string).
Arguments Ok {A} a.
Arguments Err {A} e.


(** The error go-redis reports when the store cannot be reached. *)
Definition conn_err : string := "dial tcp: connect: connection refused".

(** ** github.com/google/uuid *)

(** A [uuid.UUID] is a [16]byte; each byte is a [Z] in [0, 256). *)
Abbreviation UUID := (list Z).

Definition char_at (s : string) (i : nat) : ascii :=
  match String.get i s with Some c => c | None => Ascii.zero end.

Definition hex_digit (n : Z) : ascii :=
  char_at "0123456789abcdef" (Z.to_nat n).

(** [encodeHex] / [UUID.String]: lower-case hex, dashes after bytes 4, 6, 8, 10. *)
Fixpoint hex_bytes (bs : list Z) : string :=
  match bs with
  | [] => EmptyString
  | b :: r => String (hex_digit (Z.shiftr b 4)) (String (hex_digit (Z.land b 15)) (hex_bytes r))
  end.

Definition UUID_String (u : UUID) : string :=
  hex_bytes (firstn 4 u) ++ "-" ++ hex_bytes (firstn 2 (skipn 4 u)) ++ "-" ++
  hex_bytes (firstn 2 (skipn 6 u)) ++ "-" ++ hex_bytes (firstn 2 (skipn 8 u)) ++ "-" ++
  hex_bytes (skipn 10 u).

(** [xvalues]: the value of a hex digit of either case, 255 otherwise. *)
Definition xvalue (c : ascii) : Z :=
  let n := Z.of_nat (nat_of_ascii c) in
  if (48 <=? n) && (n <=? 57) then n - 48
  else if (97 <=? n) && (n <=? 102) then n - 87
  else if (65 <=? n) && (n <=? 70) then n - 55
  else 255.

Definition xtob (x1 x2 : ascii) : option Z :=
  let b1 := xvalue x1 in
  let b2 := xvalue x2 in
  if (b1 =? 255) || (b2 =? 255) then None else Some (Z.lor (Z.shiftl b1 4) b2).

Fixpoint parse_bytes (s : string) (offs : list nat) : option UUID :=
  match offs with
  | [] => Some []
  | x :: r =>
      match xtob (char_at s x) (char_at s (S x)) with
      | Some b => option_map (cons b) (parse_bytes s r)
      | None => None
      end
  end.

Definition dashed_offsets : list nat :=
  [0; 2; 4; 6; 9; 11; 14; 16; 19; 21; 24; 26; 28; 30; 32; 34]%nat.

Definition plain_offsets : list nat :=
  [0; 2; 4; 6; 8; 10; 12; 14; 16; 18; 20; 22; 24; 26; 28; 30]%nat.

Definition is_dash (c : ascii) : bool := Ascii.eqb c "-"%char.

(** The tail of [Parse] once [s] has the 36-character dashed layout. *)
Definition parse_dashed (s : string) : option UUID :=
  if is_dash (char_at s 8) && is_dash (char_at s 13) &&
     is_dash (char_at s 18) && is_dash (char_at s 23)
  then parse_bytes s dashed_offsets else None.

Definition ascii_fold (c : ascii) : ascii :=
  let n := nat_of_ascii c in
  if (65 <=? n)%nat && (n <=? 90)%nat then ascii_of_nat (n + 32) else c.

(** [strings.EqualFold] on ASCII text. *)
Fixpoint equal_fold (s t : string) : bool :=
  match s, t with
  | EmptyString, EmptyString => true
  | String a s', String b t' => Ascii.eqb (ascii_fold a) (ascii_fold b) && equal_fold s' t'
  | _, _ => false
  end.

(** [uuid.Parse]: the dashed form, the [urn:uuid:] form, the braced form
    (whose first and last characters are not inspected) and 32 bare hex
    digits, hex digits of either case. *)
Definition Parse (s : string) : option UUID :=
  let n := String.length s in
  if (n =? 36)%nat then parse_dashed s
  else if (n =? 45)%nat then
    if equal_fold (substring 0 9 s) "urn:uuid:" then parse_dashed (substring 9 36 s) else None
  else if (n =? 38)%nat then parse_dashed (substring 1 37 s)
  else if (n =? 32)%nat then parse_bytes s plain_offsets
  else None.

(** ** Redis sorted set [posts:scheduled] *)

(** Members with their scores (Unix seconds); members are unique. *)
Abbreviation zset := (list (string * Z)).

Definition members (z : zset) : list string := map fst z.

Definition zlt (a b : string * Z) : bool :=
  (a.2 <? b.2) || ((a.2 =? b.2) && match String.compare a.1 b.1 with Lt => true | _ => false end).

Fixpoint zinsert (x : string * Z) (l : zset) : zset :=
  match l with
  | [] => [x]
  | y :: r => if zlt y x then y :: zinsert x r else x :: y :: r
  end.

(** Redis order: by score, ties by member bytes. *)
Fixpoint zsort (l : zset) : zset :=
  match l with
  | [] => []
  | x :: r => zinsert x (zsort r)
  end.

Definition zdel (m : string) (z : zset) : zset :=
  List.filter (fun p => negb (String.eqb p.1 m)) z.

(** ZADD: insert, or overwrite the score of an existing member. *)
Definition zadd (m : string) (sc : Z) (z : zset) : zset := (m, sc) :: zdel m z.

(** ZREM: the number of members removed and the new set. *)
Definition zrem (m : string) (z : zset) : Z * zset :=
  if existsb (fun p => String.eqb p.1 m) z then (1, zdel m z) else (0, z).

(** ZRANGEBYSCORE key -inf max [LIMIT 0 count]; go-redis sends LIMIT only
    for a non-zero count, and Redis reads a negative count as no limit. *)
Definition zrangebyscore (max count : Z) (z : zset) : zset :=
  let due := zsort (List.filter (fun p => p.2 <=? max) z) in
  if count <=? 0 then due else firstn (Z.to_nat count) due.

(** Each Redis command either reaches the store ([up = true]) and runs
    atomically there, or fails with a connectivity error and changes nothing. *)
Definition ZAdd (up : bool) (m : string) (sc : Z) (z : zset) : zset * result unit :=
  if up then (zadd m sc z, Ok tt) else (z, Err conn_err).

Definition ZRem (up : bool) (m : string) (z : zset) : zset * result Z :=
  if up then let '(n, z') := zrem m z in (z', Ok n) else (z, Err conn_err).

Definition ZRangeByScoreWithScores (up : bool) (max count : Z) (z : zset) : zset * result zset :=
  if up then (z, Ok (zrangebyscore max count z)) else (z, Err conn_err).

Definition ZCard (up : bool) (z : zset) : zset * result Z :=
  if up then (z, Ok (Z.of_nat (length z))) else (z, Err conn_err).

(** ** scheduler.Queue *)

Definition Enqueue (up : bool) (z : zset) (postID : UUID) (scheduledAt : Z) : zset * result unit :=
  ZAdd up (UUID_String postID) scheduledAt z.

Definition Remove (up : bool) (z : zset) (postID : UUID) : zset * result unit :=
  let '(z', r) := ZRem up (UUID_String postID) z in
  (z', match r with Ok _ => Ok tt | Err e => Err e end).

Definition Update (up : bool) (z : zset) (postID : UUID) (scheduledAt : Z) : zset * result unit :=
  Enqueue up z postID scheduledAt.

Definition GetQueueLength (up : bool) (z : zset) : zset * result Z := ZCard up z.

(** One iteration of the loop of [GetDuePosts] on member [m]: skip it if it
    does not parse, otherwise ZREM it and keep its id only if one member
    was removed ([if err != nil || removed == 0 { continue }]). *)
Definition claim_one (up : bool) (z : zset) (m : string) : zset * option UUID :=
  match Parse m with
  | None => (z, None)
  | Some u =>
      let '(z', r) := ZRem up m z in
      match r with
      | Ok n => if n =? 0 then (z', None) else (z', Some u)
      | Err _ => (z', None)
      end
  end.

Definition option_list {A} (o : option A) : list A :=
  match o with Some a => [a] | None => [] end.

(** The link state of successive commands; commands past the end of the
    list reach the store. *)
Definition next_link (ls : list bool) : bool * list bool :=
  match ls with [] => (true, []) | b :: r => (b, r) end.

Fixpoint claim_loop (ls : list bool) (z : zset) (results : zset) (acc : list UUID)
  : zset * list UUID :=
  match results with
  | [] => (z, acc)
  | (m, _) :: rest =>
      let '(up, ls') := next_link ls in
      let '(z', o) := claim_one up z m in
      claim_loop ls' z' rest (acc ++ option_list o)
  end.

(** [GetDuePosts] at time [now] (Unix seconds): the first link is the
    ZRANGEBYSCORE, the following ones the loop iterations. *)
Definition GetDuePosts (ls : list bool) (z : zset) (now : Z) (maxCount : Z)
  : zset * result (list UUID) :=
  let '(up, ls') := next_link ls in
  let '(z1, r) := ZRangeByScoreWithScores up now maxCount z in
  match r with
  | Err e => (z1, Err e)
  | Ok results => let '(z2, ids) := claim_loop ls' z1 results [] in (z2, Ok ids)
  end.

(** ** The queue's calls under go-redis retries

    The queue code issues each Redis command once; the go-redis client
    sends it again after a network error (up to [MaxRetries], three by
    default), and the call reports the outcome of its last attempt. One
    attempt runs on the store with its reply received ([Reached]), never
    reaches the store ([Refused]), or runs on the store with its reply lost
    ([ReplyLost]: a read timeout or a dropped connection after the write).
    The links above are the calls made of one [Reached] or one [Refused]
    attempt. *)
Inductive attempt : Type := Reached | Refused | ReplyLost.

(** One call of the command [f] made of the attempts [atts]: a [Reached]
    attempt ends it with its reply, every attempt that ran changed the
    store, and a call whose attempts all failed returns an error. *)
Fixpoint run_call {A} (f : zset -> zset * A) (atts : list attempt) (z : zset) : zset * result A :=
  match atts with
  | [] => (z, Err conn_err)
  | Reached :: _ => let '(z', v) := f z in (z', Ok v)
  | Refused :: r => run_call f r z
  | ReplyLost :: r => run_call f r (f z).1
  end.

Definition zrem_cmd (m : string) (z : zset) : zset * Z := let '(n, z') := zrem m z in (z', n).
Definition zrange_cmd (max count : Z) (z : zset) : zset * zset := (z, zrangebyscore max count z).




(** The loop body of [GetDuePosts] with the ZREM made of [atts]. *)
Definition claim_oneR (atts : list attempt) (z : zset) (m : string) : zset * option UUID :=
  match Parse m with
  | None => (z, None)
  | Some u =>
      let '(z', r) := run_call (zrem_cmd m) atts z in
      match r with
      | Ok n => if n =? 0 then (z', None) else (z', Some u)
      | Err _ => (z', None)
      end
  end.

(** The attempts of successive calls; calls past the end of the list are
    answered at their first attempt. *)
Definition next_call (cs : list (list attempt)) : list attempt * list (list attempt) :=
  match cs with [] => ([Reached], []) | a :: r => (a, r) end.

Fixpoint claim_loopR (cs : list (list attempt)) (z : zset) (results : zset) (acc : list UUID)
  : zset * list UUID :=
  match results with
  | [] => (z, acc)
  | (m, _) :: rest =>
      let '(atts, cs') := next_call cs in
      let '(z', o) := claim_oneR atts z m in
      claim_loopR cs' z' rest (acc ++ option_list o)
  end.

Definition GetDuePostsR (cs : list (list attempt)) (z : zset) (now : Z) (maxCount : Z)
  : zset * result (list UUID) :=
  let '(atts, cs') := next_call cs in
  let '(z1, r) := run_call (zrange_cmd now maxCount) atts z in
  match r with
  | Err e => (z1, Err e)
  | Ok results => let '(z2, ids) := claim_loopR cs' z1 results [] in (z2, Ok ids)
  end.

(** The call of a link. *)
Definition link_call (up : bool) : list attempt := if up then [Reached] else [Refused].

(** A call gets a reply, one of its attempts ran on the store, the first of
    its attempts to run got its reply. *)
Definition call_ok (atts : list attempt) : bool :=
  existsb (fun a => match a with Reached => true | _ => false end) atts.

Definition call_ran (atts : list attempt) : bool :=
  existsb (fun a => match a with Refused => false | _ => true end) atts.

Definition first_ran_reached (atts : list attempt) : bool :=
  match List.find (fun a => match a with Refused => false | _ => true end) atts with
  | Some Reached => true
  | _ => false
  end.





(** ** Concurrent callers of [GetDuePosts]

    Redis runs each command atomically; the commands of different callers
    interleave. A caller is at its ZRANGEBYSCORE, inside its loop with the
    members still to try and the ids kept so far, or returned. *)
Inductive popper : Type :=
| PStart (now maxCount : Z)
| PLoop (rest : zset) (acc : list UUID)
| PDone (r : result (list UUID)).

(** One atomic step of a caller; [up] is the link state of its command. *)
Definition pstep (up : bool) (z : zset) (p : popper) : zset * popper :=
  match p with
  | PStart now maxCount =>
      let '(z1, r) := ZRangeByScoreWithScores up now maxCount z in
      match r with
      | Err e => (z1, PDone (Err e))
      | Ok results => (z1, PLoop results [])
      end
  | PLoop [] acc => (z, PDone (Ok acc))
  | PLoop ((m, _) :: rest) acc =>
      let '(z', o) := claim_one up z m in (z', PLoop rest (acc ++ option_list o))
  | PDone r => (z, PDone r)
  end.

Inductive cstep : zset * list popper -> zset * list popper -> Prop :=
| cstep_run (z : zset) (ps : list popper) (i : nat) (p : popper) (up : bool) (z' : zset) (p' : popper) :
    ps !! i = Some p -> pstep up z p = (z', p') -> cstep (z, ps) (z', <[i := p']> ps).

(** The ids a caller holds: kept so far, or returned. *)
Definition popper_ids (p : popper) : list UUID :=
  match p with
  | PStart _ _ => []
  | PLoop _ acc => acc
  | PDone (Ok acc) => acc
  | PDone (Err _) => []
  end.

Definition all_ids (ps : list popper) : list UUID := concat (map popper_ids ps).

(** Several polls of the worker in a row, each with its links, time and limit. *)
Fixpoint polls (ps : list (list bool * Z * Z)) (z : zset) : zset :=
  match ps with
  | [] => z
  | (ls, now, c) :: r => polls r (GetDuePosts ls z now c).1
  end.

(** Runs a schedule of (caller, link state) pairs; a caller index out of
    range is a no-op. *)
Fixpoint run_sched (sch : list (nat * bool)) (c : zset * list popper) : zset * list popper :=
  match sch with
  | [] => c
  | (i, up) :: r =>
      match c.2 !! i with
      | Some p => let '(z', p') := pstep up c.1 p in run_sched r (z', <[i := p']> c.2)
      | None => run_sched r c
      end
  end.

(** The invariant of interleaved callers started on [z0]: the members
    claimed so far are distinct members of [z0] no longer in the set, and
    their parses are, as a multiset, the ids the callers hold. *)
Definition claim_inv (z0 : zset) (c : zset * list popper) : Prop :=
  exists claimed : list string,
    List.NoDup claimed /\ List.NoDup (members c.1) /\
    (forall m, In m claimed -> ~ In m (members c.1)) /\
    (forall m, In m claimed \/ In m (members c.1) -> In m (members z0)) /\
    Permutation (map Parse claimed) (map Some (all_ids c.2)).

(** ** db.DB: the posts table *)

(** A row of [posts] with the retry columns of migration 003; times are
    Unix seconds. *)
Record Post : Type := mkPost {
  ID : UUID; UserID : UUID; Title : string; Content : string; Channel : string;
  Status : string; ScheduledAt : Z; PublishedAt : option Z;
  RetryCount : Z; LastError : option string; NextRetryAt : option Z;
  CreatedAt : Z; UpdatedAt : Z }.

Definition PostStatusScheduled : string := "scheduled".
Definition PostStatusPublished : string := "published".
Definition PostStatusFailed : string := "failed".

(** The table, keyed by [id]. Statements run against a reachable database;
    [now] is the database's [NOW()]. *)
Abbreviation store := (gmap UUID Post).

Definition is_scheduled (p : Post) : bool := String.eqb (Status p) PostStatusScheduled.

(** [SET status = 'published', published_at = NOW(), updated_at = NOW()] *)
Definition set_published (now : Z) (p : Post) : Post :=
  {| ID := ID p; UserID := UserID p; Title := Title p; Content := Content p; Channel := Channel p;
     Status := PostStatusPublished; ScheduledAt := ScheduledAt p; PublishedAt := Some now;
     RetryCount := RetryCount p; LastError := LastError p; NextRetryAt := NextRetryAt p;
     CreatedAt := CreatedAt p; UpdatedAt := now |}.

(** [SET status = 'failed', last_error = $2, updated_at = NOW()] *)
Definition set_failed (now : Z) (errorMsg : string) (p : Post) : Post :=
  {| ID := ID p; UserID := UserID p; Title := Title p; Content := Content p; Channel := Channel p;
     Status := PostStatusFailed; ScheduledAt := ScheduledAt p; PublishedAt := PublishedAt p;
     RetryCount := RetryCount p; LastError := Some errorMsg; NextRetryAt := NextRetryAt p;
     CreatedAt := CreatedAt p; UpdatedAt := now |}.

(** [SET retry_count = retry_count + 1, last_error = $2, next_retry_at = $3, updated_at = NOW()] *)
Definition set_retry (now nextRetryAt : Z) (errorMsg : string) (p : Post) : Post :=
  {| ID := ID p; UserID := UserID p; Title := Title p; Content := Content p; Channel := Channel p;
     Status := Status p; ScheduledAt := ScheduledAt p; PublishedAt := PublishedAt p;
     RetryCount := RetryCount p + 1; LastError := Some errorMsg; NextRetryAt := Some nextRetryAt;
     CreatedAt := CreatedAt p; UpdatedAt := now |}.

(** [SET title = COALESCE($3, title), ..., updated_at = NOW()] *)
Definition set_fields (now : Z) (title content channel : option string) (scheduledAt : option Z)
  (p : Post) : Post :=
  {| ID := ID p; UserID := UserID p;
     Title := default (Title p) title; Content := default (Content p) content;
     Channel := default (Channel p) channel;
     Status := Status p; ScheduledAt := default (ScheduledAt p) scheduledAt; PublishedAt := PublishedAt p;
     RetryCount := RetryCount p; LastError := LastError p; NextRetryAt := NextRetryAt p;
     CreatedAt := CreatedAt p; UpdatedAt := now |}.

Definition GetPostForRetry (st : store) (id : UUID) : option Post := st !! id.

(** [UPDATE ... WHERE id = $1 AND status = 'scheduled' RETURNING ...] *)
Definition PublishPost (now : Z) (st : store) (id : UUID) : store * option Post :=
  match st !! id with
  | Some p => if is_scheduled p then (<[id := set_published now p]> st, Some (set_published now p))
              else (st, None)
  | None => (st, None)
  end.

(** [UPDATE ... WHERE id = $1] *)
Definition MarkPostFailed (now : Z) (st : store) (id : UUID) (errorMsg : string) : store :=
  match st !! id with
  | Some p => <[id := set_failed now errorMsg p]> st
  | None => st
  end.

(** [UPDATE ... WHERE id = $1 AND status = 'scheduled'] *)
Definition ScheduleRetry (now : Z) (st : store) (id : UUID) (nextRetryAt : Z) (errorMsg : string) : store :=
  match st !! id with
  | Some p => if is_scheduled p then <[id := set_retry now nextRetryAt errorMsg p]> st else st
  | None => st
  end.

(** [UPDATE ... WHERE id = $1 AND user_id = $2 AND status = 'scheduled' RETURNING ...] *)
Definition UpdatePost (now : Z) (st : store) (id userID : UUID) (title content channel : option string)
  (scheduledAt : option Z) : store * option Post :=
  match st !! id with
  | Some p =>
      if bool_decide (UserID p = userID) && is_scheduled p
      then let p' := set_fields now title content channel scheduledAt p in (<[id := p']> st, Some p')
      else (st, None)
  | None => (st, None)
  end.

(** [DELETE FROM posts WHERE id = $1 AND user_id = $2 AND status = 'scheduled'] *)
Definition DeletePost (st : store) (id userID : UUID) : store * bool :=
  match st !! id with
  | Some p => if bool_decide (UserID p = userID) && is_scheduled p then (delete id st, true) else (st, false)
  | None => (st, false)
  end.

(** ** scheduler.Worker *)

Definition MaxRetries : Z := 3.

(** The publisher: [mockPublish] never fails; [None] is success, [Some e]
    the error text of a failure. *)
Definition mockPublish (post : Post) : option string := None.

(** [handlePublishError]: [now] is [time.Now()]; the backoff
    [math.Pow(2, retryCount)] minutes is [2 ^ retryCount * 60] seconds. The
    database statements are reachable; [up] is the link of the ZADD. *)
Definition handlePublishError (now : Z) (up : bool) (st : store) (z : zset) (post : Post)
  (publishErr : string) : store * zset * result unit :=
  let retryCount := RetryCount post + 1 in
  if retryCount >=? MaxRetries then (MarkPostFailed now st (ID post) publishErr, z, Ok tt)
  else
    let nextRetryAt := now + 2 ^ retryCount * 60 in
    let st' := ScheduleRetry now st (ID post) nextRetryAt publishErr in
    let '(z', r) := Enqueue up z (ID post) nextRetryAt in
    (st', z', r).

(** [publishPost] for one claimed id with publisher [publish]; the cache
    invalidation and the notification after a success touch neither the
    table nor the queue. *)
Definition publishPost (publish : Post -> option string) (now : Z) (up : bool) (st : store) (z : zset)
  (postID : UUID) : store * zset * result unit :=
  match GetPostForRetry st postID with
  | None => (st, z, Ok tt)
  | Some post =>
      if negb (is_scheduled post) then (st, z, Ok tt)
      else
        match publish post with
        | Some publishErr => handlePublishError now up st z post publishErr
        | None => let '(st', _) := PublishPost now st postID in (st', z, Ok tt)
        end
  end.

(** ** Further definitions: ids, queue polling, the worker loop *)

(** A [uuid.UUID] value: sixteen bytes. *)
Definition valid_uuid (u : UUID) : Prop := length u = 16%nat /\ Forall (fun b => 0 <= b < 256) u.

Definition parsable (m : string) : bool := match Parse m with Some _ => true | None => false end.

(** The members one poll claims: those of the range read that parse. *)
Definition claimed_members (results : zset) : list string := List.filter parsable (members results).

(** The loop of [processDuePosts]: each id in turn, an error logged and
    the loop going on; [ls] are the links of the re-enqueues. *)
Fixpoint publish_all (publish : Post -> option string) (now : Z) (ls : list bool) (st : store) (z : zset)
  (postIDs : list UUID) : store * zset :=
  match postIDs with
  | [] => (st, z)
  | postID :: rest =>
      let '(up, ls') := next_link ls in
      let '(st', z', _) := publishPost publish now up st z postID in
      publish_all publish now ls' st' z' rest
  end.

(** [processDuePosts]: a poll of at most 100 ids, then [publishPost] for
    each; a failed poll is logged and leaves the table alone. *)
Definition processDuePosts (publish : Post -> option string) (now : Z) (ls ls2 : list bool) (st : store) (z : zset)
  : store * zset :=
  let '(z1, r) := GetDuePosts ls z now 100 in
  match r with
  | Err _ => (st, z1)
  | Ok postIDs => publish_all publish now ls2 st z1 postIDs
  end.

(** [truncate]; [None] is the panic of [s[:maxLen-3]] when [maxLen < 3]. *)
Definition truncate (s : string) (maxLen : Z) : option string :=
  if Z.of_nat (String.length s) <=? maxLen then Some s
  else if maxLen - 3 <? 0 then None
  else Some (String.append (substring 0 (Z.to_nat (maxLen - 3)) s) "...").

(** ** db.DB: the read queries *)

(** The columns [SELECT id, user_id, title, content, channel, status,
    scheduled_at, published_at, created_at, updated_at] reads; the retry
    fields of the returned struct keep their zero values. *)
Definition select_cols (p : Post) : Post :=
  {| ID := ID p; UserID := UserID p; Title := Title p; Content := Content p; Channel := Channel p;
     Status := Status p; ScheduledAt := ScheduledAt p; PublishedAt := PublishedAt p;
     RetryCount := 0; LastError := None; NextRetryAt := None;
     CreatedAt := CreatedAt p; UpdatedAt := UpdatedAt p |}.

Definition rows (st : store) : list Post := map snd (map_to_list st).

(** [ORDER BY]: a stable insertion sort; rows that tie come in table order,
    which SQL leaves unspecified. *)
Fixpoint insert_by {A} (le : A -> A -> bool) (x : A) (l : list A) : list A :=
  match l with
  | [] => [x]
  | y :: r => if le x y then x :: y :: r else y :: insert_by le x r
  end.

Fixpoint sort_by {A} (le : A -> A -> bool) (l : list A) : list A :=
  match l with
  | [] => []
  | x :: r => insert_by le x (sort_by le r)
  end.

Fixpoint sorted_by {A} (le : A -> A -> bool) (l : list A) : bool :=
  match l with
  | x :: ((y :: _) as r) => le x y && sorted_by le r
  | _ => true
  end.

(** [ORDER BY scheduled_at ASC] *)
Definition scheduled_asc (a b : Post) : bool := ScheduledAt a <=? ScheduledAt b.

(** [ORDER BY published_at DESC]: PostgreSQL puts NULL first. *)
Definition published_desc (a b : Post) : bool :=
  match PublishedAt a, PublishedAt b with
  | None, _ => true
  | Some _, None => false
  | Some x, Some y => y <=? x
  end.

Definition is_published (p : Post) : bool := String.eqb (Status p) PostStatusPublished.

(** [WHERE user_id = $1 AND status = 'scheduled' ORDER BY scheduled_at ASC] *)
Definition GetUpcomingPosts (st : store) (userID : UUID) : list Post :=
  map select_cols (sort_by scheduled_asc
    (List.filter (fun p => bool_decide (UserID p = userID) && is_scheduled p) (rows st))).

(** [WHERE user_id = $1 AND status = 'published' ORDER BY published_at DESC] *)
Definition GetPublishedPosts (st : store) (userID : UUID) : list Post :=
  map select_cols (sort_by published_desc
    (List.filter (fun p => bool_decide (UserID p = userID) && is_published p) (rows st))).

Definition GetPostByID (st : store) (id : UUID) : option Post := option_map select_cols (st !! id).

(** Each row is stored under its own [id]. *)
Definition rows_keyed (st : store) : Prop := forall k p, st !! k = Some p -> ID p = k.

Module DB.
(** [db.GetDuePosts]: [WHERE status = 'scheduled' AND scheduled_at <= NOW()
    ORDER BY scheduled_at ASC LIMIT $1]; PostgreSQL refuses a negative
    LIMIT. *)
Definition GetDuePosts (now : Z) (st : store) (limit : Z) : result (list Post) :=
  if limit <? 0 then Err "ERROR: LIMIT must not be negative (SQLSTATE 2201W)"
  else Ok (map select_cols (firstn (Z.to_nat limit) (sort_by scheduled_asc
         (List.filter (fun p => is_scheduled p && (ScheduledAt p <=? now)) (rows st))))).
End DB.

(** ** notifier.Notifier *)

Inductive UpdateType : Type :=
| UpdateTypeCreate | UpdateTypeUpdate | UpdateTypeDelete | UpdateTypePublish.

Record PostUpdate : Type := mkPostUpdate { UpdUserID : UUID; UpdType : UpdateType }.

(** Capacity of a subscriber channel ([make(chan PostUpdate, 10)]). *)
Definition chanCap : nat := 10.

(** The registry of one process: the channels of each user, in
    subscription order, and the buffered contents of each open channel;
    channels are named by the order of their creation. [has_redis] says
    whether the process was built with a Redis client. *)
Record Notifier : Type := mkNotifier {
  subscribers : gmap UUID (list nat);
  chans : gmap nat (list PostUpdate);
  next_chan : nat;
  has_redis : bool }.

Definition subs_of (n : Notifier) (userID : UUID) : list nat := default [] (subscribers n !! userID).

Definition Subscribe (n : Notifier) (userID : UUID) : Notifier * nat :=
  let ch := next_chan n in
  (mkNotifier (<[userID := subs_of n userID ++ [ch]]> (subscribers n)) (<[ch := []]> (chans n))
              (S ch) (has_redis n), ch).

Fixpoint remove_first (ch : nat) (l : list nat) : option (list nat) :=
  match l with
  | [] => None
  | x :: r => if Nat.eqb x ch then Some r else option_map (cons x) (remove_first ch r)
  end.

(** Removes the first occurrence of [ch] and closes it, then drops an empty
    entry. *)
Definition Unsubscribe (n : Notifier) (userID : UUID) (ch : nat) : Notifier :=
  let l := subs_of n userID in
  let '(l', bufs) := match remove_first ch l with
                     | Some l' => (l', delete ch (chans n))
                     | None => (l, chans n)
                     end in
  let subs := match l' with [] => delete userID (subscribers n) | _ => <[userID := l']> (subscribers n) end in
  mkNotifier subs bufs (next_chan n) (has_redis n).

(** The non-blocking sends of [notifyLocal]: [select { case ch <- update: sent++ default: }]. *)
Fixpoint send_all (upd : PostUpdate) (chs : list nat) (bufs : gmap nat (list PostUpdate)) (sent : nat)
  : gmap nat (list PostUpdate) * nat :=
  match chs with
  | [] => (bufs, sent)
  | ch :: r =>
      match bufs !! ch with
      | Some buf =>
          if (length buf <? chanCap)%nat then send_all upd r (<[ch := buf ++ [upd]]> bufs) (S sent)
          else send_all upd r bufs sent
      | None => send_all upd r bufs sent
      end
  end.

Definition notifyLocal (n : Notifier) (userID : UUID) (updateType : UpdateType) : Notifier * nat :=
  match subs_of n userID with
  | [] => (n, 0%nat)
  | subs =>
      let '(bufs, sent) := send_all (mkPostUpdate userID updateType) subs (chans n) 0 in
      (mkNotifier (subscribers n) bufs (next_chan n) (has_redis n), sent)
  end.

(** A consumer receiving from its channel. *)
Definition Receive (n : Notifier) (ch : nat) : Notifier * option PostUpdate :=
  match chans n !! ch with
  | Some (u :: rest) => (mkNotifier (subscribers n) (<[ch := rest]> (chans n)) (next_chan n) (has_redis n), Some u)
  | _ => (n, None)
  end.

(** What one non-blocking send does to a channel's buffer. *)
Definition deliver (upd : PostUpdate) (b : option (list PostUpdate)) : option (list PostUpdate) :=
  match b with
  | Some buf => Some (if (length buf <? chanCap)%nat then buf ++ [upd] else buf)
  | None => None
  end.

(** Registry well-formedness: each user's channel list has no repeats and
    names channels created so far. *)
Definition notifier_wf (n : Notifier) : Prop :=
  forall userID, List.NoDup (subs_of n userID) /\ forall ch, In ch (subs_of n userID) -> (ch < next_chan n)%nat.

Definition SubscriberCount (n : Notifier) (userID : UUID) : nat := length (subs_of n userID).

Definition TotalSubscribers (n : Notifier) : nat :=
  map_fold (fun _ subs total => (total + length subs)%nat) 0%nat (subscribers n).

(** The number of registered channels of [userID] with room in their buffer. *)
Definition room_count (n : Notifier) (userID : UUID) : nat :=
  length (List.filter (fun ch => match chans n !! ch with
                                 | Some buf => (length buf <? chanCap)%nat
                                 | None => false
                                 end) (subs_of n userID)).

(** ** cache.Cache *)

(** ** [json.Marshal] of posts

    [time.Time.MarshalJSON] fails for a year outside [[0, 9999]]; every
    other field of [models.Post] always encodes. Times are Unix seconds,
    read in UTC (the zone the process runs in): the years 0 to 9999 are
    the seconds from 0000-01-01T00:00:00Z to 9999-12-31T23:59:59Z. *)
Definition time_marshal_ok (t : Z) : bool := (-62167219200 <=? t) && (t <=? 253402300799).

Definition opt_time_marshal_ok (t : option Z) : bool :=
  match t with Some t => time_marshal_ok t | None => true end.

Definition post_marshal_ok (p : Post) : bool :=
  time_marshal_ok (ScheduledAt p) && opt_time_marshal_ok (PublishedAt p) &&
  opt_time_marshal_ok (NextRetryAt p) && time_marshal_ok (CreatedAt p) && time_marshal_ok (UpdatedAt p).

(** [json.Marshal] of a list of posts, or of a map holding such lists,
    fails exactly when one of the posts does not encode. *)
Definition posts_marshal_ok (posts : list Post) : bool := forallb post_marshal_ok posts.


Module Cache.


Definition upcomingKey (userID : UUID) : string := String.append "cache:posts:upcoming:" (UUID_String userID).
Definition historyKey (userID : UUID) : string := String.append "cache:posts:history:" (UUID_String userID).

(** A Redis string value: what [json.Marshal] wrote for a list of posts
    (decoded back to that list), or bytes that do not decode to one. *)
Inductive cached : Type :=
| CPosts (posts : list Post)
| CRaw (s : string).

(** The Redis keys with their values and expiry times; a key is live
    strictly before its expiry. *)
Abbreviation kv := (gmap string (cached * Z)).

(** GET: [None] for a missing or expired key. *)
Definition get (now : Z) (c : kv) (key : string) : option cached :=
  match c !! key with
  | Some (v, exp) => if now <? exp then Some v else None
  | None => None
  end.

Definition getPosts (up : bool) (now : Z) (c : kv) (key : string) : option (list Post) :=
  if up then match get now c key with Some (CPosts posts) => Some posts | _ => None end else None.

Definition GetUpcomingPosts (up : bool) (now : Z) (c : kv) (userID : UUID) : option (list Post) :=
  getPosts up now c (upcomingKey userID).
Definition GetHistoryPosts (up : bool) (now : Z) (c : kv) (userID : UUID) : option (list Post) :=
  getPosts up now c (historyKey userID).



(** DEL of both keys *)
Definition InvalidateUserPosts (up : bool) (c : kv) (userID : UUID) : kv * result unit :=
  if up then (delete (historyKey userID) (delete (upcomingKey userID) c), Ok tt) else (c, Err conn_err).

Definition InvalidateByUserID (up : bool) (c : kv) (userID : UUID) : kv * result unit :=
  InvalidateUserPosts up c userID.

End Cache.


(** ** Processes sharing the Redis channel [post_updates] *)

(** A message on the bus: the JSON of a [PostUpdate], or a payload that
    does not decode. *)
Inductive payload : Type :=
| PJson (u : PostUpdate)
| PRaw (s : string).

Definition unmarshal (m : payload) : option PostUpdate :=
  match m with PJson u => Some u | PRaw _ => None end.

(** The notifiers of the processes, and the messages waiting on each
    process's pub/sub subscription (one per process built with Redis). *)
Record System : Type := mkSystem {
  procs : gmap nat Notifier;
  inbox : gmap nat (list payload) }.

(** [Notify] in process [p]: local delivery, then PUBLISH to every
    subscribed connection, this process's own included. *)
Definition Notify (sys : System) (p : nat) (userID : UUID) (updateType : UpdateType) : System :=
  match procs sys !! p with
  | None => sys
  | Some n =>
      let n' := (notifyLocal n userID updateType).1 in
      mkSystem (<[p := n']> (procs sys))
        (if has_redis n then fmap (fun l => l ++ [PJson (mkPostUpdate userID updateType)]) (inbox sys)
         else inbox sys)
  end.

(** One iteration of [listenRedis] in process [q]: take the next message;
    a message that does not decode is logged and dropped, otherwise it goes
    to [notifyLocal]. [None]: the loop is waiting. *)
Definition listenRedis_step (sys : System) (q : nat) : option System :=
  match inbox sys !! q, procs sys !! q with
  | Some (msg :: rest), Some n =>
      match unmarshal msg with
      | Some update =>
          Some (mkSystem (<[q := (notifyLocal n (UpdUserID update) (UpdType update)).1]> (procs sys))
                         (<[q := rest]> (inbox sys)))
      | None => Some (mkSystem (procs sys) (<[q := rest]> (inbox sys)))
      end
  | _, _ => None
  end.

(** A notifier with no subscriber yet. *)
Definition emptyNotifier (redis : bool) : Notifier := mkNotifier ∅ ∅ 0 redis.

(** ** handlers.SSEHandler (src/unnamed/part_004) *)

(** [fmt.Sprintf("%s:%s:%d;", p.ID, p.Status, p.UpdatedAt.Unix())] *)
Definition post_triple (p : Post) : string :=
  String.append (UUID_String (ID p))
    (String.append ":" (String.append (Status p) (String.append ":" (String.append (pretty (UpdatedAt p)) ";")))).

Definition hashPosts (posts : list Post) : string :=
  match posts with
  | [] => "empty"
  | _ => fold_left (fun result p => String.append result (post_triple p)) posts ""
  end.

(** What the handler writes on the stream; [FUpdateNoData] is an update
    event with empty data, written when the initial snapshot does not
    encode (its [json.Marshal] error is ignored). *)
Inductive Frame : Type :=
| FConnected
| FUpdate (upcoming history : list Post)
| FUpdateNoData
| FKeepalive.

(** The handler's locals, the frames written so far, and whether it is
    still in its loop. *)
Record SSEState : Type := mkSSE {
  lastUpcomingHash : string;
  lastHistoryHash : string;
  frames : list Frame;
  running : bool }.

(** A nil result of a query (error or no rows) is sent as [[]]. *)
Definition or_empty (r : result (list Post)) : list Post :=
  match r with Ok l => l | Err _ => [] end.

(** Whether [json.Marshal] of the snapshot map succeeds. *)
Definition snapshot_ok (upcoming history : list Post) : bool :=
  posts_marshal_ok upcoming && posts_marshal_ok history.

(** Up to the loop: the connected event ([connectedOk] is whether that
    write succeeded), then the initial snapshot, query, marshal and write
    errors ignored. *)
Definition StreamPosts_start (connectedOk : bool) (up hist : result (list Post)) : SSEState :=
  if connectedOk then
    let upcoming := or_empty up in
    let history := or_empty hist in
    mkSSE (hashPosts upcoming) (hashPosts history)
      [FConnected; if snapshot_ok upcoming history then FUpdate upcoming history else FUpdateNoData] true
  else mkSSE "" "" [] false.

(** The cases of the [select]: the request context is done; the 10-second
    keepalive ticker fires ([ok]: the write succeeded); the 5-second ticker
    fires with the results of the two queries. *)
Inductive SSEEvent : Type :=
| EvDone
| EvKeepalive (ok : bool)
| EvTick (up hist : result (list Post)) (ok : bool).

Definition stop (st : SSEState) : SSEState :=
  mkSSE (lastUpcomingHash st) (lastHistoryHash st) (frames st) false.

Definition sse_step (st : SSEState) (ev : SSEEvent) : SSEState :=
  if negb (running st) then st else
  match ev with
  | EvDone => stop st
  | EvKeepalive ok =>
      if ok then mkSSE (lastUpcomingHash st) (lastHistoryHash st) (frames st ++ [FKeepalive]) true
      else stop st
  | EvTick (Err _) _ _ => st
  | EvTick (Ok upcoming) (Err _) _ => st
  | EvTick (Ok upcoming) (Ok history) ok =>
      let upcomingHash := hashPosts upcoming in
      let historyHash := hashPosts history in
      if negb (String.eqb upcomingHash (lastUpcomingHash st)) || negb (String.eqb historyHash (lastHistoryHash st))
      then
        if negb (snapshot_ok upcoming history) then mkSSE upcomingHash historyHash (frames st) true
        else if ok then mkSSE upcomingHash historyHash (frames st ++ [FUpdate upcoming history]) true
        else mkSSE upcomingHash historyHash (frames st) false
      else st
  end.


Definition sse_run (st : SSEState) (evs : list SSEEvent) : SSEState := fold_left sse_step evs st.

(** Whether the snapshot of a tick that read both lists would encode. *)
Definition tick_encodes (ev : SSEEvent) : bool :=
  match ev with
  | EvTick (Ok up) (Ok hist) _ => snapshot_ok up hist
  | _ => true
  end.

(** The fingerprint pairs of the update frames, in order. *)
Fixpoint fingerprints (fs : list Frame) : list (string * string) :=
  match fs with
  | [] => []
  | FUpdate u h :: r => (hashPosts u, hashPosts h) :: fingerprints r
  | _ :: r => fingerprints r
  end.

Fixpoint adjacent_distinct (l : list (string * string)) : bool :=
  match l with
  | x :: ((y :: _) as r) => negb (bool_decide (x = y)) && adjacent_distinct r
  | _ => true
  end.

(** A process's notifier next to one running stream handler: the
    handler's events, and [Notify] calls made by the post handlers. *)
Inductive StreamEvent : Type :=
| SEHandler (ev : SSEEvent)
| SENotify (userID : UUID) (updateType : UpdateType).

Record StreamSys : Type := mkStreamSys { ss_notifier : Notifier; ss_handler : SSEState }.

Definition stream_step (s : StreamSys) (e : StreamEvent) : StreamSys :=
  match e with
  | SEHandler ev => mkStreamSys (ss_notifier s) (sse_step (ss_handler s) ev)
  | SENotify userID ty => mkStreamSys (notifyLocal (ss_notifier s) userID ty).1 (ss_handler s)
  end.

Definition stream_run (s : StreamSys) (es : list StreamEvent) : StreamSys := fold_left stream_step es s.

(** A sample post id. *)
Definition u1 : UUID := [160; 238; 188; 153; 156; 11; 78; 248; 187; 109; 107; 185; 189; 56; 10; 17].
(** Its canonical spelling, and the same id in upper case. *)
Definition u1_str : string := "a0eebc99-9c0b-4ef8-bb6d-6bb9bd380a11".
Definition u1_upper : string := "A0EEBC99-9C0B-4EF8-BB6D-6BB9BD380A11".
(** Two schedules of two callers: alternating, and the race where caller 0
    reads the range and claims once before caller 1 reads. *)
Definition sched_alt : list (nat * bool) :=
  [(0, true); (1, true); (0, true); (1, true); (0, true); (1, true)]%nat.
Definition sched_race : list (nat * bool) :=
  [(0, true); (0, true); (1, true); (1, true); (0, true); (0, true); (1, true)]%nat.
(** A post already published at time 50. *)
Definition post_published : Post :=
  {| ID := u1; UserID := [7]; Title := "t"; Content := "c"; Channel := "twitter";
     Status := PostStatusPublished; ScheduledAt := 40; PublishedAt := Some 50;
     RetryCount := 0; LastError := None; NextRetryAt := None; CreatedAt := 10; UpdatedAt := 50 |}.
(** A post scheduled at time 900 that has not failed yet, alone in the
    table, and a publisher that always fails. *)
Definition post_scheduled : Post :=
  {| ID := u1; UserID := [7]; Title := "t"; Content := "c"; Channel := "twitter";
     Status := PostStatusScheduled; ScheduledAt := 900; PublishedAt := None;
     RetryCount := 0; LastError := None; NextRetryAt := None; CreatedAt := 10; UpdatedAt := 10 |}.
Definition store_one : store := {[ u1 := post_scheduled ]}.
Definition failing_publisher (post : Post) : option string := Some "rate limited".

(** Two subscriptions of user [[7]] in a process without Redis, and a
    subscription whose buffer already holds ten events. *)
Definition notifier_two : Notifier := (Subscribe (Subscribe (emptyNotifier false) [7]).1 [7]).1.
Definition notifier_full : Notifier :=
  (Subscribe (fold_left (fun n _ => (notifyLocal n [7] UpdateTypeUpdate).1) (seq 0 10) notifier_two) [7]).1.
(** Two processes with Redis (an API server, 0, and a worker, 1); user [[7]]
    is subscribed once on the API server. *)
Definition sys_two : System :=
  mkSystem {[ 0%nat := (Subscribe (emptyNotifier true) [7]).1; 1%nat := emptyNotifier true ]}
           {[ 0%nat := []; 1%nat := [] ]}.
(** A handler connected to user [[7]] whose lists were [[post_scheduled]] and
    [[]] at connection time, next to a process registry. *)
Definition stream_one : StreamSys :=
  mkStreamSys (emptyNotifier false) (StreamPosts_start true (Ok [post_scheduled]) (Ok [])).

(** A second post id, and a queue holding a due post, a member that is
    not a UUID, and a post due later. *)
Definition u2 : UUID := [1; 2; 3; 4; 5; 6; 7; 8; 9; 10; 11; 12; 13; 14; 15; 16].
Definition queue_three : zset := [(u1_str, 5); ("junk", 3); ("x", 50)].

(** * Proofs *)


Example u1_string : UUID_String u1 = "a0eebc99-9c0b-4ef8-bb6d-6bb9bd380a11".
Proof. vm_compute. reflexivity. Qed.
Example u1_parse : Parse "a0eebc99-9c0b-4ef8-bb6d-6bb9bd380a11" = Some u1.
Proof. vm_compute. reflexivity. Qed.
Example u1_parse_upper : Parse "A0EEBC99-9C0B-4EF8-BB6D-6BB9BD380A11" = Some u1.
Proof. vm_compute. reflexivity. Qed.
Example u1_parse_urn : Parse "urn:uuid:a0eebc99-9c0b-4ef8-bb6d-6bb9bd380a11" = Some u1.
Proof. vm_compute. reflexivity. Qed.
Example bad_parse : Parse "not-a-uuid" = None.
Proof. vm_compute. reflexivity. Qed.
Example due_ex :
  GetDuePosts [] [("a0eebc99-9c0b-4ef8-bb6d-6bb9bd380a11", 5); ("junk", 3); ("x", 50)] 10 100
  = ([("junk", 3); ("x", 50)], Ok [u1]).
Proof. vm_compute. reflexivity. Qed.

(** ** The sorted set *)

Lemma In_zdel (m : string) (p : string * Z) (z : zset) :
  In p (zdel m z) <-> In p z /\ p.1 <> m.
Proof.
  unfold zdel. rewrite filter_In.
  destruct (String.eqb_spec p.1 m); simpl; intuition congruence.
Qed.

Lemma members_zdel (m : string) (z : zset) :
  members (zdel m z) = List.filter (fun x => negb (String.eqb x m)) (members z).
Proof.
  induction z as [|[x s] z IH]; simpl; [reflexivity|].
  destruct (String.eqb x m); simpl; rewrite ?IH; reflexivity.
Qed.

Lemma existsb_members (m : string) (z : zset) :
  existsb (fun p => String.eqb p.1 m) z = true <-> In m (members z).
Proof.
  rewrite existsb_exists. unfold members. rewrite in_map_iff. split.
  - intros [p [Hp Heq]]. apply String.eqb_eq in Heq. eauto.
  - intros [p [Heq Hp]]. exists p. split; [exact Hp|]. apply String.eqb_eq. exact Heq.
Qed.

Lemma zrem_spec (m : string) (z : zset) :
  (In m (members z) /\ zrem m z = (1, zdel m z)) \/ (~ In m (members z) /\ zrem m z = (0, z)).
Proof.
  unfold zrem. destruct (existsb _ z) eqn:E.
  - left. split; [apply existsb_members; exact E|reflexivity].
  - right. split; [|reflexivity]. rewrite <- existsb_members, E. discriminate.
Qed.

Lemma NoDup_members_zdel (m : string) (z : zset) :
  List.NoDup (members z) -> List.NoDup (members (zdel m z)).
Proof. intros H. rewrite members_zdel. apply List.NoDup_filter. exact H. Qed.

Lemma In_members_zdel (m x : string) (z : zset) :
  In x (members (zdel m z)) <-> In x (members z) /\ x <> m.
Proof.
  rewrite members_zdel, filter_In.
  destruct (String.eqb_spec x m); simpl; intuition congruence.
Qed.

(** ** One iteration of the claim loop *)

(** An iteration either keeps the set and no id, or removes a member that
    was present and keeps its parsed id. *)
Lemma claim_one_spec (up : bool) (z : zset) (m : string) :
  claim_one up z m = (z, None) \/
  (exists u, Parse m = Some u /\ In m (members z) /\ claim_one up z m = (zdel m z, Some u)).
Proof.
  unfold claim_one. destruct (Parse m) as [u|] eqn:Hp; [|left; reflexivity].
  unfold ZRem. destruct up; [|left; reflexivity].
  destruct (zrem_spec m z) as [[Hin ->]|[_ ->]]; simpl.
  - right. exists u. auto.
  - left. reflexivity.
Qed.

Lemma claim_one_unparsed (up : bool) (z : zset) (m : string) :
  Parse m = None -> claim_one up z m = (z, None).
Proof. intros H. unfold claim_one. rewrite H. reflexivity. Qed.

Lemma claim_one_keeps (up : bool) (z : zset) (m m' : string) (s : Z) :
  Parse m = None -> In (m, s) z -> In (m, s) (claim_one up z m').1.
Proof.
  intros Hm Hin. destruct (claim_one_spec up z m') as [-> | [u [Hu [_ ->]]]]; simpl; [exact Hin|].
  apply In_zdel. split; [exact Hin|]. simpl. intros ->. congruence.
Qed.

Lemma claim_one_sub (up : bool) (z : zset) (m : string) (p : string * Z) :
  In p (claim_one up z m).1 -> In p z.
Proof.
  destruct (claim_one_spec up z m) as [-> | [u [_ [_ ->]]]]; simpl; [auto|].
  intros H. apply In_zdel in H. tauto.
Qed.

Lemma claim_loop_keeps (ls : list bool) (z results : zset) (acc : list UUID) (m : string) (s : Z) :
  Parse m = None -> In (m, s) z -> In (m, s) (claim_loop ls z results acc).1.
Proof.
  revert ls z acc. induction results as [|[m' s'] rest IH]; intros ls z acc Hm Hin; simpl; [exact Hin|].
  destruct (next_link ls) as [up ls'].
  destruct (claim_one up z m') as [z' o] eqn:E.
  apply IH; [exact Hm|].
  pose proof (claim_one_keeps up z m m' s Hm Hin) as K. rewrite E in K. exact K.
Qed.

(** Every id the loop keeps is the parse of a member of the set it started on. *)
Lemma claim_loop_ids (ls : list bool) (z results : zset) (acc : list UUID) (u : UUID) :
  In u (claim_loop ls z results acc).2 ->
  In u acc \/ exists m s, In (m, s) z /\ Parse m = Some u.
Proof.
  revert ls z acc. induction results as [|[m' s'] rest IH]; intros ls z acc; simpl; [auto|].
  destruct (next_link ls) as [up ls'].
  destruct (claim_one_spec up z m') as [E | [v [Hv [Hin E]]]]; rewrite E.
  - intros H. destruct (IH _ _ _ H) as [H1|[m [s [H2 H3]]]].
    + left. rewrite app_nil_r in H1. exact H1.
    + right. eauto.
  - intros H. destruct (IH _ _ _ H) as [H1|[m [s [H2 H3]]]].
    + apply in_app_or in H1. destruct H1 as [H1|[<-|[]]]; [left; exact H1|].
      right. unfold members in Hin. apply in_map_iff in Hin. destruct Hin as [[x sx] [Hx Hxin]].
      simpl in Hx. subst x. exists m', sx. auto.
    + right. exists m, s. split; [|exact H3]. apply In_zdel in H2. tauto.
Qed.

(** A reached range read makes [GetDuePosts] return [Ok]. *)
Lemma GetDuePosts_up (ls : list bool) (z : zset) (now c : Z) :
  exists z' ids, GetDuePosts (true :: ls) z now c = (z', Ok ids).
Proof.
  unfold GetDuePosts. simpl.
  destruct (claim_loop ls z (zrangebyscore now c z) []) as [z2 ids]. eauto.
Qed.

Lemma GetDuePosts_down (ls : list bool) (z : zset) (now c : Z) :
  GetDuePosts (false :: ls) z now c = (z, Err conn_err).
Proof. reflexivity. Qed.

(** ** Interleaved callers *)

Lemma all_ids_split (ps : list popper) (i : nat) (p : popper) :
  ps !! i = Some p ->
  all_ids ps = all_ids (take i ps) ++ popper_ids p ++ all_ids (drop (S i) ps).
Proof.
  intros H. rewrite <- (take_drop_middle ps i p H) at 1.
  unfold all_ids. rewrite map_app, concat_app. reflexivity.
Qed.

Lemma all_ids_insert (ps : list popper) (i : nat) (p p' : popper) :
  ps !! i = Some p ->
  all_ids (<[i := p']> ps) = all_ids (take i ps) ++ popper_ids p' ++ all_ids (drop (S i) ps).
Proof.
  intros H. rewrite insert_take_drop by (eapply lookup_lt_Some; eauto).
  unfold all_ids. rewrite map_app, concat_app. reflexivity.
Qed.

(** A step either leaves the set and the caller's ids alone, or moves one
    present member out of the set and its parse into the caller's ids. *)
Lemma pstep_cases (up : bool) (z : zset) (p : popper) (z' : zset) (p' : popper) :
  pstep up z p = (z', p') ->
  (z' = z /\ popper_ids p' = popper_ids p) \/
  (exists m u, Parse m = Some u /\ In m (members z) /\ z' = zdel m z /\
               popper_ids p' = popper_ids p ++ [u]).
Proof.
  destruct p as [now c|rest acc|r]; simpl.
  - unfold ZRangeByScoreWithScores. destruct up; intros E; inversion E; subst; left; auto.
  - destruct rest as [|[m s] rest].
    + intros E; inversion E; subst. left. auto.
    + destruct (claim_one_spec up z m) as [E1 | [u [Hu [Hin E1]]]]; rewrite E1; intros E; inversion E; subst.
      * left. simpl. rewrite app_nil_r. auto.
      * right. exists m, u. simpl. auto.
  - intros E; inversion E; subst. left. auto.
Qed.

Lemma claim_inv_step (z0 : zset) (c c' : zset * list popper) :
  cstep c c' -> claim_inv z0 c -> claim_inv z0 c'.
Proof.
  intros Hs. destruct Hs as [z ps i p up z' p' Hi Hp]. simpl.
  intros [claimed [Hnd [Hndz [Hdisj [Hsub Hperm]]]]]. simpl in *.
  rewrite (all_ids_split ps i p Hi) in Hperm.
  destruct (pstep_cases up z p z' p' Hp) as [[-> Hids] | [m [u [Hu [Hin [-> Hids]]]]]].
  - exists claimed. repeat split; auto. simpl.
    rewrite (all_ids_insert ps i p p' Hi), Hids. exact Hperm.
  - exists (m :: claimed). repeat split.
    + constructor; [|exact Hnd]. intros Hc. exact (Hdisj m Hc Hin).
    + apply NoDup_members_zdel. exact Hndz.
    + intros x [<-|Hx] Hx'; apply In_members_zdel in Hx'; [tauto|].
      exact (Hdisj x Hx (proj1 Hx')).
    + intros x [[<-|Hx]|Hx].
      * apply Hsub. right. exact Hin.
      * apply Hsub. left. exact Hx.
      * apply Hsub. right. apply In_members_zdel in Hx. tauto.
    + simpl. rewrite (all_ids_insert ps i p p' Hi), Hids. simpl. rewrite Hu.
      rewrite !map_app in *. simpl.
      rewrite <- !app_assoc. simpl. rewrite app_assoc.
      apply Permutation_cons_app. rewrite <- app_assoc. exact Hperm.
Qed.

Lemma claim_inv_steps (z0 : zset) (c c' : zset * list popper) :
  rtc cstep c c' -> claim_inv z0 c -> claim_inv z0 c'.
Proof.
  induction 1 as [c|c1 c2 c3 H12 H23 IH]; [auto|].
  intros H. apply IH. exact (claim_inv_step z0 c1 c2 H12 H).
Qed.

Lemma run_sched_steps (sch : list (nat * bool)) (c : zset * list popper) :
  rtc cstep c (run_sched sch c).
Proof.
  revert c. induction sch as [|[i up] r IH]; intros [z ps]; simpl; [apply rtc_refl|].
  destruct (ps !! i) as [p|] eqn:Hi; [|apply IH].
  destruct (pstep up z p) as [z' p'] eqn:Hp.
  eapply rtc_l; [|apply IH]. econstructor; eauto.
Qed.

Lemma NoDup_map_on {A B} (f : A -> B) (l : list A) :
  (forall x y, In x l -> In y l -> f x = f y -> x = y) -> List.NoDup l -> List.NoDup (map f l).
Proof.
  induction l as [|a l IH]; intros Hinj Hnd; simpl; [constructor|].
  inversion Hnd as [|? ? Ha Hl]; subst. constructor.
  - intros Hm. apply in_map_iff in Hm. destruct Hm as [x [Hx Hxl]].
    assert (x = a) by (apply Hinj; simpl; auto). subst. contradiction.
  - apply IH; [|exact Hl]. intros x y Hx Hy. apply Hinj; simpl; auto.
Qed.

Lemma GetDuePosts_keeps (ls : list bool) (z : zset) (now c : Z) (m : string) (s : Z) :
  Parse m = None -> In (m, s) z -> In (m, s) (GetDuePosts ls z now c).1.
Proof.
  intros Hm Hin. unfold GetDuePosts. destruct (next_link ls) as [up ls'].
  unfold ZRangeByScoreWithScores. destruct up; simpl; [|exact Hin].
  pose proof (claim_loop_keeps ls' z (zrangebyscore now c z) [] m s Hm Hin) as K.
  destruct (claim_loop ls' z (zrangebyscore now c z) []). exact K.
Qed.

Lemma polls_keeps (rest : list (list bool * Z * Z)) (z : zset) (m : string) (s : Z) :
  Parse m = None -> In (m, s) z -> In (m, s) (polls rest z).
Proof.
  revert z. induction rest as [|[[ls now] c] r IH]; intros z Hm Hin; simpl; [exact Hin|].
  apply IH; [exact Hm|]. apply GetDuePosts_keeps; assumption.
Qed.

Lemma Remove_true (z : zset) (postID : UUID) :
  Remove true z postID = ((zrem (UUID_String postID) z).2, Ok tt).
Proof. unfold Remove, ZRem. destruct (zrem _ _). reflexivity. Qed.

(** ** C9: [Remove] is idempotent *)

(** C9. With the store reachable, [Remove] never errors, a second [Remove]
    of the same id leaves the set as the first one left it, and removing an
    id that is not in the queue changes nothing. *)
Theorem Remove_idempotent (z : zset) (postID : UUID) :
  (Remove true z postID).2 = Ok tt /\
  Remove true (Remove true z postID).1 postID = ((Remove true z postID).1, Ok tt) /\
  (~ In (UUID_String postID) (members z) -> Remove true z postID = (z, Ok tt)).
Proof.
  rewrite !Remove_true. simpl.
  destruct (zrem_spec (UUID_String postID) z) as [[Hin E]|[Hout E]]; rewrite E; simpl.
  - split; [reflexivity|]. split; [|tauto].
    destruct (zrem_spec (UUID_String postID) (zdel (UUID_String postID) z)) as [[Hin' _]|[_ E']].
    + apply In_members_zdel in Hin'. tauto.
    + rewrite E'. reflexivity.
  - rewrite E. auto.
Qed.

(** ** C10: members that are not UUIDs *)

(** C10. A queue member that does not parse as a UUID is never removed by
    [GetDuePosts] and keeps its score, whatever the links, time and limit;
    the call reports an error only when its range read fails; every id it
    returns parses from another member; and the member survives every later
    poll, still due once its score has passed. *)
Theorem GetDuePosts_malformed_member (ls : list bool) (z : zset) (now maxCount : Z) (m : string) (s : Z) :
  Parse m = None -> In (m, s) z ->
  let '(z', r) := GetDuePosts ls z now maxCount in
  In (m, s) z' /\
  (forall e, r = Err e -> (next_link ls).1 = false) /\
  (forall ids u, r = Ok ids -> In u ids -> exists m' s', In (m', s') z /\ Parse m' = Some u /\ m' <> m) /\
  (forall later : list (list bool * Z * Z), In (m, s) (polls later z')).
Proof.
  intros Hm Hin.
  pose proof (GetDuePosts_keeps ls z now maxCount m s Hm Hin) as K.
  destruct (GetDuePosts ls z now maxCount) as [z' r] eqn:E. simpl in K.
  split; [exact K|]. split; [|split].
  - intros e ->. unfold GetDuePosts in E. destruct (next_link ls) as [up ls']. simpl.
    unfold ZRangeByScoreWithScores in E. destruct up; [|reflexivity].
    destruct (claim_loop _ _ _ _). discriminate.
  - intros ids u -> Hu. unfold GetDuePosts in E. destruct (next_link ls) as [up ls'].
    unfold ZRangeByScoreWithScores in E. destruct up; [|discriminate].
    destruct (claim_loop ls' z (zrangebyscore now maxCount z) []) as [z2 ids'] eqn:El.
    inversion E; subst.
    pose proof (claim_loop_ids ls' z (zrangebyscore now maxCount z) [] u) as H.
    rewrite El in H. destruct (H Hu) as [[]|[m' [s' [H1 H2]]]].
    exists m', s'. repeat split; [exact H1|exact H2|]. intros ->. congruence.
  - intros later. apply polls_keeps; assumption.
Qed.

Lemma GetDuePosts_malformed_member_witness :
  let '(z', r) := GetDuePosts [] [("junk", 3); (u1_str, 5)] 10 100 in
  In ("junk", 3) z' /\
  (forall e, r = Err e -> (next_link []).1 = false) /\
  (forall ids u, r = Ok ids -> In u ids ->
     exists m' s', In (m', s') [("junk", 3); (u1_str, 5)] /\ Parse m' = Some u /\ m' <> "junk"%string) /\
  (forall later : list (list bool * Z * Z), In ("junk", 3) (polls later z')).
Proof.
  apply (GetDuePosts_malformed_member [] [("junk", 3); (u1_str, 5)] 10 100 "junk" 3).
  - vm_compute. reflexivity.
  - simpl. auto.
Defined.

(** ** C4: store errors in the queue operations *)


Lemma all_ids_start (ps : list popper) :
  Forall (fun p => exists now c, p = PStart now c) ps -> all_ids ps = [].
Proof.
  induction 1 as [|p ps [now [c ->]] _ IH]; [reflexivity|]. exact IH.
Qed.

(** ** C3: concurrent callers of [GetDuePosts] *)

(** C3 (amended). However the commands of any number of callers started on
    a queue [z0] interleave (and whichever of them fail to reach the store),
    the members claimed are distinct members of [z0], gone from the queue,
    and their parses are, as a multiset, all the ids the callers hold. When
    every member of [z0] is the canonical spelling of its id (as [Enqueue]
    writes it), no id is held twice, across or within callers, and each
    id's canonical string is a member of [z0]. *)
Theorem GetDuePosts_concurrent_claims (z0 : zset) (ps0 : list popper) (z : zset) (ps : list popper) :
  List.NoDup (members z0) ->
  Forall (fun p => exists now c, p = PStart now c) ps0 ->
  rtc cstep (z0, ps0) (z, ps) ->
  (exists claimed : list string,
     List.NoDup claimed /\
     (forall m, In m claimed -> In m (members z0) /\ ~ In m (members z)) /\
     Permutation (map Parse claimed) (map Some (all_ids ps))) /\
  ((forall m, In m (members z0) -> exists u, Parse m = Some u /\ UUID_String u = m) ->
   List.NoDup (all_ids ps) /\ (forall u, In u (all_ids ps) -> In (UUID_String u) (members z0))).
Proof.
  intros Hnd Hstart Hrun.
  assert (Hinit : claim_inv z0 (z0, ps0)).
  { exists []. simpl. repeat split; auto; [constructor|tauto|].
    rewrite (all_ids_start ps0 Hstart). constructor. }
  destruct (claim_inv_steps z0 _ _ Hrun Hinit) as [claimed [Hcl [_ [Hdisj [Hsub Hperm]]]]].
  simpl in *.
  split.
  - exists claimed. repeat split; auto.
  - intros Hcanon. split.
    + apply (NoDup_map_inv Some).
      apply (Permutation_NoDup Hperm). apply NoDup_map_on; [|exact Hcl].
      intros x y Hx Hy Hxy.
      destruct (Hcanon x (Hsub x (or_introl Hx))) as [ux [Hpx Hsx]].
      destruct (Hcanon y (Hsub y (or_introl Hy))) as [uy [Hpy Hsy]].
      rewrite Hpx, Hpy in Hxy. inversion Hxy. congruence.
    + intros u Hu.
      assert (Hin : In (Some u) (map Parse claimed)).
      { apply (Permutation_in _ (Permutation_sym Hperm)). apply in_map. exact Hu. }
      apply in_map_iff in Hin. destruct Hin as [m [Hpm Hm]].
      pose proof (Hsub m (or_introl Hm)) as Hm0.
      destruct (Hcanon m Hm0) as [u' [Hpu Hsu]].
      rewrite Hpm in Hpu. inversion Hpu. subst. exact Hm0.
Qed.

(** Two callers on a queue holding one canonical member. *)
Lemma GetDuePosts_concurrent_claims_witness :
  (exists claimed : list string,
     List.NoDup claimed /\
     (forall m, In m claimed -> In m (members [(u1_str, 0)]) /\
                ~ In m (members (run_sched sched_alt
                                   ([(u1_str, 0)], [PStart 10 100; PStart 10 100])).1)) /\
     Permutation (map Parse claimed)
       (map Some (all_ids (run_sched sched_alt
                             ([(u1_str, 0)], [PStart 10 100; PStart 10 100])).2))) /\
  ((forall m, In m (members [(u1_str, 0)]) -> exists u, Parse m = Some u /\ UUID_String u = m) ->
   List.NoDup (all_ids (run_sched sched_alt
                          ([(u1_str, 0)], [PStart 10 100; PStart 10 100])).2) /\
   (forall u, In u (all_ids (run_sched sched_alt
                               ([(u1_str, 0)], [PStart 10 100; PStart 10 100])).2) ->
              In (UUID_String u) (members [(u1_str, 0)]))).
Proof.
  apply (GetDuePosts_concurrent_claims [(u1_str, 0)] [PStart 10 100; PStart 10 100]).
  - repeat constructor. simpl. tauto.
  - repeat constructor; eauto.
  - pose proof (run_sched_steps sched_alt ([(u1_str, 0)], [PStart 10 100; PStart 10 100])) as R.
    destruct (run_sched sched_alt _) as [a b]. exact R.
Defined.

(** C3 (counterexample). The queue holds one id under two spellings, upper
    and lower case. Caller 0 reads both and removes the first; caller 1 then
    reads and removes the second; caller 0's removal of the second finds
    nothing. Both callers return the same id. *)
Lemma GetDuePosts_same_id_two_callers :
  rtc cstep ([(u1_upper, 0); (u1_str, 0)], [PStart 10 100; PStart 10 100])
            ([], [PDone (Ok [u1]); PDone (Ok [u1])]) /\
  Parse u1_upper = Some u1 /\ Parse u1_str = Some u1.
Proof.
  split; [|split; vm_compute; reflexivity].
  assert (E : run_sched sched_race
                ([(u1_upper, 0); (u1_str, 0)], [PStart 10 100; PStart 10 100])
              = ([], [PDone (Ok [u1]); PDone (Ok [u1])])) by (vm_compute; reflexivity).
  rewrite <- E. apply run_sched_steps.
Qed.

(** ** C1: terminal statuses in the posts table *)

(** The guarded statements leave a published or failed row alone. *)
Lemma guarded_statements_terminal (st : store) (id userID : UUID) (p : Post) (now next : Z)
  (msg : string) (title content channel : option string) (sched : option Z) :
  st !! id = Some p -> Status p = PostStatusPublished \/ Status p = PostStatusFailed ->
  PublishPost now st id = (st, None) /\
  ScheduleRetry now st id next msg = st /\
  UpdatePost now st id userID title content channel sched = (st, None) /\
  DeletePost st id userID = (st, false).
Proof.
  intros Hp Hs.
  assert (Hn : is_scheduled p = false).
  { unfold is_scheduled. destruct Hs as [-> | ->]; reflexivity. }
  unfold PublishPost, ScheduleRetry, UpdatePost, DeletePost. rewrite Hp, Hn, andb_false_r.
  repeat split.
Qed.

(** C1 (code defect). Unlike the other statements, [MarkPostFailed] has no
    [status = 'scheduled'] guard: on a published row it rewrites the status
    to failed, sets [last_error] and bumps [updated_at]. *)
Theorem MarkPostFailed_overwrites_published :
  (MarkPostFailed 100 {[ u1 := post_published ]} u1 "timeout") !! u1 = Some (set_failed 100 "timeout" post_published) /\
  Status post_published = PostStatusPublished /\
  Status (set_failed 100 "timeout" post_published) = PostStatusFailed /\
  PublishPost 100 {[ u1 := post_published ]} u1 = ({[ u1 := post_published ]}, None).
Proof.
  unfold MarkPostFailed, PublishPost. rewrite lookup_singleton_eq.
  rewrite insert_singleton. split; [apply lookup_singleton_eq|]. repeat split.
Qed.

(** ** C2: the retry policy *)

Lemma publishPost_fail (publish : Post -> option string) (now : Z) (st : store) (z : zset)
  (id : UUID) (post : Post) (msg : string) :
  st !! id = Some post -> ID post = id -> is_scheduled post = true -> publish post = Some msg ->
  publishPost publish now true st z id =
  if RetryCount post + 1 >=? MaxRetries then (<[id := set_failed now msg post]> st, z, Ok tt)
  else (<[id := set_retry now (now + 2 ^ (RetryCount post + 1) * 60) msg post]> st,
        zadd (UUID_String id) (now + 2 ^ (RetryCount post + 1) * 60) z, Ok tt).
Proof.
  intros Hp Hid Hs Hpub. unfold publishPost, GetPostForRetry. rewrite Hp, Hs, Hpub. simpl.
  unfold handlePublishError, MarkPostFailed, ScheduleRetry. rewrite Hid, Hp, Hs.
  destruct (_ >=? _); reflexivity.
Qed.

Lemma publishPost_retry (publish : Post -> option string) (now : Z) (st : store) (z : zset)
  (id : UUID) (post : Post) (msg : string) :
  st !! id = Some post -> ID post = id -> is_scheduled post = true -> publish post = Some msg ->
  RetryCount post + 1 < MaxRetries ->
  publishPost publish now true st z id =
  (<[id := set_retry now (now + 2 ^ (RetryCount post + 1) * 60) msg post]> st,
   zadd (UUID_String id) (now + 2 ^ (RetryCount post + 1) * 60) z, Ok tt).
Proof.
  intros Hp Hid Hs Hpub Hlt. rewrite (publishPost_fail publish now st z id post msg Hp Hid Hs Hpub).
  destruct (Z.geb_spec (RetryCount post + 1) MaxRetries); [lia|reflexivity].
Qed.

Lemma publishPost_final (publish : Post -> option string) (now : Z) (st : store) (z : zset)
  (id : UUID) (post : Post) (msg : string) :
  st !! id = Some post -> ID post = id -> is_scheduled post = true -> publish post = Some msg ->
  RetryCount post + 1 >= MaxRetries ->
  publishPost publish now true st z id = (<[id := set_failed now msg post]> st, z, Ok tt).
Proof.
  intros Hp Hid Hs Hpub Hge. rewrite (publishPost_fail publish now st z id post msg Hp Hid Hs Hpub).
  destruct (Z.geb_spec (RetryCount post + 1) MaxRetries); [reflexivity|lia].
Qed.

(** C2. When publishing a scheduled post with retry count [a] fails with
    text [msg]: if [a + 1 >= MaxRetries] the row is marked failed with
    [msg] and the queue is left as it was; otherwise the row gets retry
    count [a + 1], [last_error = msg] and [next_retry_at = now + 2^(a+1)]
    minutes, and the id is queued at that time. Three failures in a row from
    [a = 0], each after the worker popped the id, give delays of 2 and 4
    minutes, then a failed row and no entry in the queue. *)
Theorem publish_failure_retry_policy (publish : Post -> option string) (st : store) (z : zset)
  (post : Post) (msg : string) (now t2 t3 : Z) :
  st !! ID post = Some post -> Status post = PostStatusScheduled -> publish post = Some msg ->
  (RetryCount post + 1 >= MaxRetries ->
     publishPost publish now true st z (ID post) = (<[ID post := set_failed now msg post]> st, z, Ok tt)) /\
  (RetryCount post + 1 < MaxRetries ->
     publishPost publish now true st z (ID post) =
     (<[ID post := set_retry now (now + 2 ^ (RetryCount post + 1) * 60) msg post]> st,
      zadd (UUID_String (ID post)) (now + 2 ^ (RetryCount post + 1) * 60) z, Ok tt)) /\
  (RetryCount post = 0 -> (forall p, publish p = Some msg) ->
     let '(st1, z1, _) := publishPost publish now true st z (ID post) in
     let '(st2, z2, _) := publishPost publish t2 true st1 (zdel (UUID_String (ID post)) z1) (ID post) in
     let '(st3, z3, _) := publishPost publish t3 true st2 (zdel (UUID_String (ID post)) z2) (ID post) in
     option_map NextRetryAt (st1 !! ID post) = Some (Some (now + 2 * 60)) /\
     In (UUID_String (ID post), now + 2 * 60) z1 /\
     option_map NextRetryAt (st2 !! ID post) = Some (Some (t2 + 4 * 60)) /\
     In (UUID_String (ID post), t2 + 4 * 60) z2 /\
     option_map Status (st3 !! ID post) = Some PostStatusFailed /\
     option_map LastError (st3 !! ID post) = Some (Some msg) /\
     z3 = zdel (UUID_String (ID post)) z2 /\
     ~ In (UUID_String (ID post)) (members z3)).
Proof.
  intros Hp Hs Hpub.
  assert (Hsch : is_scheduled post = true) by (unfold is_scheduled; rewrite Hs; reflexivity).
  split; [|split].
  - intros Hge. exact (publishPost_final publish now st z (ID post) post msg Hp eq_refl Hsch Hpub Hge).
  - intros Hlt. exact (publishPost_retry publish now st z (ID post) post msg Hp eq_refl Hsch Hpub Hlt).
  - intros H0 Hall.
    set (id := ID post). set (s := UUID_String id).
    set (p1 := set_retry now (now + 2 * 60) msg post).
    set (p2 := set_retry t2 (t2 + 4 * 60) msg p1).
    assert (E1 : publishPost publish now true st z id = (<[id := p1]> st, zadd s (now + 2 * 60) z, Ok tt)).
    { rewrite (publishPost_retry publish now st z id post msg) by (auto; unfold MaxRetries; lia).
      unfold p1, s. rewrite H0. reflexivity. }
    assert (E2 : publishPost publish t2 true (<[id := p1]> st) (zdel s (zadd s (now + 2 * 60) z)) id
                 = (<[id := p2]> (<[id := p1]> st), zadd s (t2 + 4 * 60) (zdel s (zadd s (now + 2 * 60) z)), Ok tt)).
    { rewrite (publishPost_retry publish t2 _ _ id p1 msg)
        by first [apply lookup_insert_eq | reflexivity | exact Hsch | apply Hall
                 | (unfold p1; cbn [RetryCount set_retry]; unfold MaxRetries; lia)].
      unfold p2, p1, s. cbn [RetryCount set_retry]. rewrite H0. reflexivity. }
    assert (E3 : forall z2, publishPost publish t3 true (<[id := p2]> (<[id := p1]> st)) z2 id
                 = (<[id := set_failed t3 msg p2]> (<[id := p2]> (<[id := p1]> st)), z2, Ok tt)).
    { intros z2. rewrite (publishPost_final publish t3 _ _ id p2 msg)
        by first [apply lookup_insert_eq | reflexivity | exact Hsch | apply Hall
                 | (unfold p2, p1; cbn [RetryCount set_retry]; unfold MaxRetries; lia)].
      reflexivity. }
    rewrite E1. cbn iota beta. rewrite E2. cbn iota beta. rewrite E3. cbn iota beta.
    rewrite !lookup_insert_eq. cbn [option_map].
    repeat split; try (unfold zadd; left; reflexivity).
    rewrite In_members_zdel. tauto.
Qed.

Lemma publish_failure_retry_policy_witness :
  (RetryCount post_scheduled + 1 >= MaxRetries ->
     publishPost failing_publisher 1000 true store_one [] (ID post_scheduled) =
     (<[ID post_scheduled := set_failed 1000 "rate limited" post_scheduled]> store_one, [], Ok tt)) /\
  (RetryCount post_scheduled + 1 < MaxRetries ->
     publishPost failing_publisher 1000 true store_one [] (ID post_scheduled) =
     (<[ID post_scheduled := set_retry 1000 (1000 + 2 ^ (RetryCount post_scheduled + 1) * 60)
                               "rate limited" post_scheduled]> store_one,
      zadd (UUID_String (ID post_scheduled)) (1000 + 2 ^ (RetryCount post_scheduled + 1) * 60) [], Ok tt)) /\
  (RetryCount post_scheduled = 0 -> (forall p, failing_publisher p = Some "rate limited"%string) ->
     let '(st1, z1, _) := publishPost failing_publisher 1000 true store_one [] (ID post_scheduled) in
     let '(st2, z2, _) := publishPost failing_publisher 1200 true st1
                            (zdel (UUID_String (ID post_scheduled)) z1) (ID post_scheduled) in
     let '(st3, z3, _) := publishPost failing_publisher 1500 true st2
                            (zdel (UUID_String (ID post_scheduled)) z2) (ID post_scheduled) in
     option_map NextRetryAt (st1 !! ID post_scheduled) = Some (Some (1000 + 2 * 60)) /\
     In (UUID_String (ID post_scheduled), 1000 + 2 * 60) z1 /\
     option_map NextRetryAt (st2 !! ID post_scheduled) = Some (Some (1200 + 4 * 60)) /\
     In (UUID_String (ID post_scheduled), 1200 + 4 * 60) z2 /\
     option_map Status (st3 !! ID post_scheduled) = Some PostStatusFailed /\
     option_map LastError (st3 !! ID post_scheduled) = Some (Some "rate limited"%string) /\
     z3 = zdel (UUID_String (ID post_scheduled)) z2 /\
     ~ In (UUID_String (ID post_scheduled)) (members z3)).
Proof.
  apply (publish_failure_retry_policy failing_publisher store_one [] post_scheduled "rate limited" 1000 1200 1500).
  - unfold store_one. apply lookup_singleton_eq.
  - reflexivity.
  - reflexivity.
Defined.

(** ** Notifier *)

Lemma send_all_notin (upd : PostUpdate) (chs : list nat) (bufs : gmap nat (list PostUpdate)) (sent ch : nat) :
  ~ In ch chs -> (send_all upd chs bufs sent).1 !! ch = bufs !! ch.
Proof.
  revert bufs sent. induction chs as [|a r IH]; intros bufs sent Hn; [reflexivity|].
  simpl. assert (a <> ch) by (intros ->; apply Hn; left; reflexivity).
  assert (Hr : ~ In ch r) by (intros H'; apply Hn; right; exact H').
  destruct (bufs !! a) as [buf|] eqn:E; [destruct (length buf <? chanCap)%nat|];
    rewrite IH by exact Hr; try reflexivity.
  apply lookup_insert_ne. exact H.
Qed.

Lemma send_all_in (upd : PostUpdate) (chs : list nat) (bufs : gmap nat (list PostUpdate)) (sent ch : nat) :
  List.NoDup chs -> In ch chs -> (send_all upd chs bufs sent).1 !! ch = deliver upd (bufs !! ch).
Proof.
  revert bufs sent. induction chs as [|a r IH]; intros bufs sent Hnd Hin; [destruct Hin|].
  inversion Hnd as [|? ? Ha Hr]; subst. simpl.
  destruct Hin as [<-|Hin].
  - destruct (bufs !! a) as [buf|] eqn:E; simpl.
    + destruct (length buf <? chanCap)%nat; rewrite send_all_notin by exact Ha; [|exact E].
      apply lookup_insert_eq.
    + rewrite send_all_notin by exact Ha. exact E.
  - assert (a <> ch) by (intros ->; contradiction).
    destruct (bufs !! a) as [buf|] eqn:E; [destruct (length buf <? chanCap)%nat|];
      rewrite IH by assumption; try reflexivity.
    rewrite lookup_insert_ne by exact H. reflexivity.
Qed.

Lemma subs_of_insert (n : Notifier) (m : gmap UUID (list nat)) (u v : UUID) (l : list nat) :
  default [] (<[u := l]> m !! v) = if bool_decide (u = v) then l else default [] (m !! v).
Proof.
  case_bool_decide as E.
  - subst. rewrite lookup_insert_eq. reflexivity.
  - rewrite lookup_insert_ne by exact E. reflexivity.
Qed.

Lemma emptyNotifier_wf (redis : bool) : notifier_wf (emptyNotifier redis).
Proof. intros u. unfold subs_of. simpl. rewrite lookup_empty. split; [constructor | intros ? []]. Qed.

Lemma Subscribe_wf (n : Notifier) (userID : UUID) :
  notifier_wf n -> notifier_wf (Subscribe n userID).1.
Proof.
  intros Hwf u. unfold subs_of. simpl. rewrite (subs_of_insert n).
  case_bool_decide as E.
  - subst. destruct (Hwf u) as [Hnd Hlt]. split.
    + apply List.NoDup_app; [exact Hnd | constructor; [intros []|constructor] |].
      intros x Hx [<-|[]]. specialize (Hlt _ Hx). lia.
    + intros ch Hin. apply in_app_or in Hin. destruct Hin as [Hin|[<-|[]]]; [specialize (Hlt _ Hin)|]; lia.
  - destruct (Hwf u) as [Hnd Hlt]. split; [exact Hnd|]. intros ch Hin. specialize (Hlt _ Hin). lia.
Qed.

Lemma remove_first_sub (ch : nat) (l l' : list nat) :
  remove_first ch l = Some l' -> List.NoDup l -> List.NoDup l' /\ forall x, In x l' -> In x l.
Proof.
  revert l'. induction l as [|a r IH]; intros l' Hr Hnd; [discriminate|].
  inversion Hnd as [|? ? Ha Hnr]; subst. simpl in Hr.
  destruct (Nat.eqb a ch).
  - injection Hr as <-. split; [exact Hnr|]. intros x Hx; right; exact Hx.
  - destruct (remove_first ch r) as [r'|] eqn:E; [|discriminate]. injection Hr as <-.
    destruct (IH r' eq_refl Hnr) as [Hnd' Hsub]. split.
    + constructor; [intros Hin; apply Ha, Hsub, Hin | exact Hnd'].
    + intros x [<-|Hx]; [left; reflexivity | right; apply Hsub, Hx].
Qed.

Lemma Unsubscribe_wf (n : Notifier) (userID : UUID) (ch : nat) :
  notifier_wf n -> notifier_wf (Unsubscribe n userID ch).
Proof.
  intros Hwf u. unfold Unsubscribe.
  destruct (Hwf userID) as [Hnd0 Hlt0].
  assert (Hl : exists l', List.NoDup l' /\ (forall x, In x l' -> In x (subs_of n userID)) /\
     subscribers (Unsubscribe n userID ch) =
       match l' with [] => delete userID (subscribers n) | _ => <[userID := l']> (subscribers n) end /\
     next_chan (Unsubscribe n userID ch) = next_chan n).
  { unfold Unsubscribe. destruct (remove_first ch (subs_of n userID)) as [l'|] eqn:E.
    - destruct (remove_first_sub _ _ _ E Hnd0) as [H1 H2]. exists l'. auto.
    - exists (subs_of n userID). split; [exact Hnd0|]. split; [auto|]. split; reflexivity. }
  destruct Hl as [l' [Hnd [Hsub [Hs Hn]]]].
  fold (Unsubscribe n userID ch). unfold subs_of at 1 2. rewrite Hs, Hn.
  destruct (Hwf u) as [Hndu Hltu].
  destruct l' as [|a r].
  - destruct (decide (userID = u)) as [->|E].
    + rewrite lookup_delete_eq. simpl. split; [constructor | intros ? []].
    + rewrite lookup_delete_ne by exact E. split; [exact Hndu | exact Hltu].
  - rewrite (subs_of_insert n). case_bool_decide as E.
    + subst. split; [exact Hnd|]. intros x Hx. apply Hlt0, Hsub, Hx.
    + split; [exact Hndu | exact Hltu].
Qed.

Lemma notifyLocal_subscribers (n : Notifier) (userID : UUID) (ty : UpdateType) :
  subscribers (notifyLocal n userID ty).1 = subscribers n /\ next_chan (notifyLocal n userID ty).1 = next_chan n.
Proof.
  unfold notifyLocal. destruct (subs_of n userID); [auto|].
  destruct (send_all _ _ _ _). auto.
Qed.

Lemma notifyLocal_wf (n : Notifier) (userID : UUID) (ty : UpdateType) :
  notifier_wf n -> notifier_wf (notifyLocal n userID ty).1.
Proof.
  intros Hwf u. destruct (notifyLocal_subscribers n userID ty) as [Hs Hn].
  unfold subs_of. rewrite Hs, Hn. apply Hwf.
Qed.

(** ** Claim theorems of the notifier *)

(** C6: a [Notify(userID, kind)] call in a process replaces the process's
    registry by the result of [notifyLocal], which is total (the caller
    never waits) and leaves the subscriptions as they are; every channel
    registered under [userID] gets one copy of the event when its 10-slot
    buffer has room and is left as it was when the buffer is full, each
    independently of the others; channels of other users are untouched. *)
Theorem notifyLocal_delivery (sys : System) (p : nat) (n : Notifier) (userID : UUID) (ty : UpdateType) :
  procs sys !! p = Some n ->
  List.NoDup (subs_of n userID) ->
  procs (Notify sys p userID ty) !! p = Some (notifyLocal n userID ty).1 /\
  subscribers (notifyLocal n userID ty).1 = subscribers n /\
  (forall ch, In ch (subs_of n userID) ->
     chans (notifyLocal n userID ty).1 !! ch = deliver (mkPostUpdate userID ty) (chans n !! ch)) /\
  (forall ch, ~ In ch (subs_of n userID) -> chans (notifyLocal n userID ty).1 !! ch = chans n !! ch).
Proof.
  intros Hp Hnd. split; [|split; [apply notifyLocal_subscribers|]].
  { unfold Notify. rewrite Hp. simpl. apply lookup_insert_eq. }
  unfold notifyLocal. destruct (subs_of n userID) as [|a r] eqn:E.
  - split; [intros ? []|]. intros; reflexivity.
  - rewrite <- E in *.
    destruct (send_all (mkPostUpdate userID ty) (subs_of n userID) (chans n) 0) as [bufs sent] eqn:Es.
    simpl. split.
    + intros ch Hin. pose proof (send_all_in (mkPostUpdate userID ty) _ (chans n) 0 ch Hnd Hin) as H.
      rewrite Es in H. exact H.
    + intros ch Hin. pose proof (send_all_notin (mkPostUpdate userID ty) _ (chans n) 0 ch Hin) as H.
      rewrite Es in H. exact H.
Qed.

(** The two cases of the sample registries: both subscriptions of [[7]] get
    the event; the full eleventh slot is not taken, the other subscriptions
    still get it. *)
Lemma notifyLocal_delivery_witness :
  (procs (mkSystem {[ 0%nat := notifier_two ]} ∅) !! 0%nat = Some notifier_two /\
   List.NoDup (subs_of notifier_two [7])) /\
  chans (notifyLocal notifier_two [7] UpdateTypeCreate).1 !! 0%nat = Some [mkPostUpdate [7] UpdateTypeCreate] /\
  chans (notifyLocal notifier_two [7] UpdateTypeCreate).1 !! 1%nat = Some [mkPostUpdate [7] UpdateTypeCreate] /\
  (forall ch, In ch (subs_of notifier_two [7]) ->
     chans (notifyLocal notifier_two [7] UpdateTypeCreate).1 !! ch =
     deliver (mkPostUpdate [7] UpdateTypeCreate) (chans notifier_two !! ch)).
Proof.
  assert (Hp : procs (mkSystem {[ 0%nat := notifier_two ]} ∅) !! 0%nat = Some notifier_two)
    by (simpl; apply lookup_singleton_eq).
  assert (Hnd : List.NoDup (subs_of notifier_two [7])) by (vm_compute; repeat constructor; simpl; intuition lia).
  split; [split; assumption|].
  split; [vm_compute; reflexivity|]. split; [vm_compute; reflexivity|].
  exact (proj1 (proj2 (proj2 (notifyLocal_delivery (mkSystem {[ 0%nat := notifier_two ]} ∅) 0%nat notifier_two [7] UpdateTypeCreate Hp Hnd)))).
Defined.

(** With Redis, the process that calls [Notify] is itself subscribed to
    [post_updates]: its relay hands the event to [notifyLocal] a second
    time, so a local subscriber receives it twice. *)
Lemma Notify_echo :
  option_map (fun s => chans <$> procs s !! 0%nat)
    (listenRedis_step (Notify sys_two 0 [7] UpdateTypeCreate) 0) =
  Some (Some {[ 0%nat := [mkPostUpdate [7] UpdateTypeCreate; mkPostUpdate [7] UpdateTypeCreate] ]}).
Proof. vm_compute. reflexivity. Qed.

(** C7: one iteration of the relay [listenRedis] of process [q] takes the
    next message of [q]'s subscription off it and, when it decodes, only
    hands it to [q]'s own [notifyLocal]; the registries of the other
    processes and the pending messages of every subscription are left as
    they were, so nothing is published back onto the bus. *)
Theorem listenRedis_local_only (sys sys' : System) (q : nat) :
  listenRedis_step sys q = Some sys' ->
  exists msg rest n,
    inbox sys !! q = Some (msg :: rest) /\ procs sys !! q = Some n /\
    inbox sys' = <[q := rest]> (inbox sys) /\
    (forall q', q' <> q -> inbox sys' !! q' = inbox sys !! q' /\ procs sys' !! q' = procs sys !! q') /\
    procs sys' !! q = Some (match unmarshal msg with
                            | Some u => (notifyLocal n (UpdUserID u) (UpdType u)).1
                            | None => n
                            end).
Proof.
  unfold listenRedis_step.
  destruct (inbox sys !! q) as [[|msg rest]|] eqn:Ei; try discriminate.
  destruct (procs sys !! q) as [n|] eqn:Ep; try discriminate.
  intros H. exists msg, rest, n. split; [reflexivity|]. split; [reflexivity|].
  destruct (unmarshal msg) as [u|]; injection H as <-; simpl.
  - split; [reflexivity|]. split.
    + intros q' Hq. rewrite !lookup_insert_ne by congruence. auto.
    + apply lookup_insert_eq.
  - split; [reflexivity|]. split; [|exact Ep].
    intros q' Hq. rewrite lookup_insert_ne by congruence. auto.
Qed.

(** ** Stream handler *)










(** ** Claim theorems of the stream handler *)

(** C5 (code bug): the handler never subscribes to the notifier. A
    [Notify] of any user leaves the handler as it was, and the handler's
    events leave the registry as it was. For a handler connected for user
    [[7]], [Notify([7], create)] writes no frame after the initial snapshot,
    and the user has no subscription to release. *)
Theorem StreamPosts_ignores_Notify :
  (forall s userID ty, ss_handler (stream_step s (SENotify userID ty)) = ss_handler s) /\
  (forall s ev, ss_notifier (stream_step s (SEHandler ev)) = ss_notifier s) /\
  subs_of (ss_notifier (stream_run stream_one [SENotify [7] UpdateTypeCreate])) [7] = [] /\
  frames (ss_handler stream_one) = [FConnected; FUpdate [post_scheduled] []] /\
  ss_handler (stream_run stream_one [SENotify [7] UpdateTypeCreate]) = ss_handler stream_one.
Proof.
  split; [intros; reflexivity|]. split; [intros; reflexivity|].
  vm_compute. auto.
Qed.



(** The worker (process 1) publishes a [publish] event for user [[7]]; the
    API server's relay takes it: its own registry gets it, the worker's
    subscription is left as it was. *)
Lemma listenRedis_local_only_witness :
  exists sys', listenRedis_step (Notify sys_two 1 [7] UpdateTypePublish) 0 = Some sys' /\
    inbox sys' !! 1%nat = inbox (Notify sys_two 1 [7] UpdateTypePublish) !! 1%nat.
Proof.
  destruct (listenRedis_step (Notify sys_two 1 [7] UpdateTypePublish) 0) as [sys'|] eqn:E;
    [|vm_compute in E; discriminate].
  exists sys'. split; [reflexivity|].
  destruct (listenRedis_local_only (Notify sys_two 1 [7] UpdateTypePublish) sys' 0 E)
    as (msg & rest & n & _ & _ & _ & Hq & _).
  exact (proj1 (Hq 1%nat ltac:(lia))).
Defined.

(** * Further properties of the code *)

Lemma xtob_hex_all :
  forallb (fun n => match xtob (hex_digit (Z.shiftr (Z.of_nat n) 4)) (hex_digit (Z.land (Z.of_nat n) 15)) with
                    | Some b => b =? Z.of_nat n | None => false end) (seq 0 256) = true.
Proof. vm_compute. reflexivity. Qed.

Lemma xtob_hex (b : Z) : 0 <= b < 256 -> xtob (hex_digit (Z.shiftr b 4)) (hex_digit (Z.land b 15)) = Some b.
Proof.
  intros Hb. pose proof xtob_hex_all as H. rewrite forallb_forall in H.
  specialize (H (Z.to_nat b)). rewrite Z2Nat.id in H by lia.
  assert (Hin : In (Z.to_nat b) (seq 0 256)) by (apply in_seq; lia).
  specialize (H Hin). destruct (xtob _ _) as [b'|]; [|discriminate]. apply Z.eqb_eq in H. subst. reflexivity.
Qed.

Lemma Parse_UUID_String (u : UUID) : valid_uuid u -> Parse (UUID_String u) = Some u.
Proof.
  intros [Hl Hb].
  do 16 (destruct u as [|? u]; [discriminate|]). destruct u; [|discriminate].
  repeat match goal with H : Forall _ (_ :: _) |- _ => inversion H; subst; clear H end.
  unfold Parse, UUID_String. cbv -[xtob hex_digit Z.shiftr Z.land].
  rewrite !xtob_hex by assumption. reflexivity.
Qed.

Lemma UUID_String_inj (u v : UUID) : valid_uuid u -> valid_uuid v -> UUID_String u = UUID_String v -> u = v.
Proof.
  intros Hu Hv E. apply Parse_UUID_String in Hu, Hv. rewrite E in Hu. congruence.
Qed.

(** X1: printing a sixteen-byte id with [UUID.String] and parsing the text
    with [uuid.Parse] gives the id back, so two ids print the same only if
    they are equal: the queue member of a post names that post alone. *)
Theorem UUID_round_trip (u : UUID) (Hu : valid_uuid u) :
  Parse (UUID_String u) = Some u /\
  forall v, valid_uuid v -> UUID_String v = UUID_String u -> v = u.
Proof.
  split; [apply Parse_UUID_String; exact Hu|].
  intros v Hv E. exact (UUID_String_inj v u Hv Hu E).
Qed.

Lemma UUID_round_trip_witness : valid_uuid u1 /\ Parse (UUID_String u1) = Some u1.
Proof.
  assert (Hu : valid_uuid u1) by (split; [reflexivity|repeat (constructor; [lia|]); constructor]).
  split; [exact Hu|]. exact (proj1 (UUID_round_trip u1 Hu)).
Defined.

(** ** Range reads *)

Lemma perm_in_iff {A} (l l' : list A) (x : A) : Permutation l l' -> In x l <-> In x l'.
Proof. intros H. split; apply Permutation_in; [exact H | symmetry; exact H]. Qed.

Lemma firstn_in {A} (n : nat) (l : list A) (x : A) : In x (firstn n l) -> In x l.
Proof. intros H. rewrite <- (firstn_skipn n l). apply in_or_app. left. exact H. Qed.

Lemma zinsert_perm (x : string * Z) (l : zset) : Permutation (zinsert x l) (x :: l).
Proof.
  induction l as [|y r IH]; simpl; [reflexivity|].
  destruct (zlt y x); [|reflexivity].
  rewrite IH. apply perm_swap.
Qed.

Lemma zsort_perm (l : zset) : Permutation (zsort l) l.
Proof.
  induction l as [|x r IH]; simpl; [reflexivity|].
  rewrite zinsert_perm, IH. reflexivity.
Qed.

Lemma zrange_sub (now c : Z) (z : zset) (p : string * Z) :
  In p (zrangebyscore now c z) -> In p z /\ p.2 <= now.
Proof.
  unfold zrangebyscore. intros H.
  assert (H' : In p (zsort (List.filter (fun p => p.2 <=? now) z))).
  { destruct (c <=? 0); [exact H|]. eapply firstn_in. exact H. }
  rewrite (perm_in_iff _ _ _ (zsort_perm _)) in H'. apply filter_In in H'.
  destruct H' as [H1 H2]. apply Z.leb_le in H2. auto.
Qed.

Lemma zrange_all (now c : Z) (z : zset) (p : string * Z) :
  c <= 0 -> In p (zrangebyscore now c z) <-> In p z /\ p.2 <= now.
Proof.
  intros Hc. unfold zrangebyscore. replace (c <=? 0) with true by (symmetry; apply Z.leb_le; lia).
  rewrite (perm_in_iff _ _ _ (zsort_perm _)), filter_In, Z.leb_le. reflexivity.
Qed.

Lemma NoDup_members_filter (f : string * Z -> bool) (z : zset) :
  List.NoDup (members z) -> List.NoDup (members (List.filter f z)).
Proof.
  induction z as [|[m s] z IH]; simpl; intros H; [constructor|].
  inversion H as [|? ? Hm Hz]; subst.
  destruct (f (m, s)); simpl; [|auto].
  constructor; [|auto]. intros Hin. apply Hm.
  unfold members in Hin |- *. apply in_map_iff in Hin. destruct Hin as [[x y] [Hx Hin]].
  apply filter_In in Hin. apply in_map_iff. exists (x, y). tauto.
Qed.

Lemma zrange_NoDup (now c : Z) (z : zset) :
  List.NoDup (members z) -> List.NoDup (members (zrangebyscore now c z)).
Proof.
  intros H. pose proof (NoDup_members_filter (fun p => p.2 <=? now) z H) as H1.
  assert (H2 : List.NoDup (members (zsort (List.filter (fun p => p.2 <=? now) z)))).
  { eapply Permutation_NoDup; [|exact H1]. apply Permutation_map. symmetry. apply zsort_perm. }
  unfold zrangebyscore. destruct (c <=? 0); [exact H2|].
  unfold members. rewrite <- firstn_map.
  apply (NoDup_app_remove_r _ (skipn (Z.to_nat c) (members (zsort (List.filter (fun p => p.2 <=? now) z))))).
  rewrite firstn_skipn. exact H2.
Qed.

Lemma zrange_length (now c : Z) (z : zset) :
  0 < c -> (length (zrangebyscore now c z) <= Z.to_nat c)%nat.
Proof.
  intros Hc. unfold zrangebyscore. replace (c <=? 0) with false by (symmetry; apply Z.leb_gt; lia).
  apply firstn_le_length.
Qed.

(** ** Removal from the set *)

Lemma zdel_notin (m : string) (z : zset) : ~ In m (members z) -> zdel m z = z.
Proof.
  induction z as [|[x s] z IH]; simpl; intros H; [reflexivity|].
  destruct (String.eqb_spec x m) as [->|E]; [exfalso; apply H; left; reflexivity|].
  simpl. f_equal. apply IH. intros Hin. apply H. right. exact Hin.
Qed.

Lemma length_zdel (m : string) (z : zset) :
  List.NoDup (members z) -> In m (members z) -> S (length (zdel m z)) = length z.
Proof.
  induction z as [|[x s] z IH]; simpl; intros Hnd Hin; [destruct Hin|].
  inversion Hnd as [|? ? Hx Hz]; subst.
  destruct (String.eqb_spec x m) as [->|E]; simpl.
  - rewrite zdel_notin by exact Hx. reflexivity.
  - destruct Hin as [->|Hin]; [congruence|]. rewrite IH by assumption. reflexivity.
Qed.

Lemma filter_ext_pw {A} (f g : A -> bool) (l : list A) :
  (forall x, f x = g x) -> List.filter f l = List.filter g l.
Proof. intros H. induction l as [|x r IH]; simpl; [reflexivity|]. rewrite H, IH. reflexivity. Qed.

Lemma filter_zdel (f : string * Z -> bool) (m : string) (z : zset) :
  List.filter f (zdel m z) = List.filter (fun p => negb (String.eqb p.1 m) && f p) z.
Proof.
  induction z as [|p z IH]; simpl; [reflexivity|].
  destruct (String.eqb p.1 m); simpl; [exact IH|]. destruct (f p); rewrite IH; reflexivity.
Qed.

Lemma NoDup_members_same (z : zset) (m : string) (s s' : Z) :
  List.NoDup (members z) -> In (m, s) z -> In (m, s') z -> s = s'.
Proof.
  induction z as [|[x t] z IH]; simpl; intros Hnd H1 H2; [destruct H1|].
  inversion Hnd as [|? ? Hx Hz]; subst.
  destruct H1 as [E1|H1]; destruct H2 as [E2|H2].
  - congruence.
  - injection E1 as -> ->. exfalso. apply Hx. unfold members. apply in_map_iff. exists (m, s'). auto.
  - injection E2 as -> ->. exfalso. apply Hx. unfold members. apply in_map_iff. exists (m, s). auto.
  - eauto.
Qed.

Lemma In_members (z : zset) (m : string) (s : Z) : In (m, s) z -> In m (members z).
Proof. intros H. unfold members. apply in_map_iff. exists (m, s). auto. Qed.

Lemma In_omap {A B} (f : A -> option B) (l : list A) (x : A) (y : B) :
  In x l -> f x = Some y -> In y (omap f l).
Proof.
  induction l as [|a r IH]; simpl; [tauto|]. intros [->|H] Hf.
  - rewrite Hf. left. reflexivity.
  - destruct (f a); [right|]; auto.
Qed.

(** ** The poll when every command reaches Redis *)

Lemma claim_loop_up (results z : zset) (acc : list UUID) :
  List.NoDup (members z) -> List.NoDup (members results) ->
  (forall m, In m (members results) -> In m (members z)) ->
  claim_loop [] z results acc =
    (List.filter (fun p => negb (existsb (String.eqb p.1) (claimed_members results))) z,
     acc ++ omap (fun p => Parse p.1) results).
Proof.
  revert z acc. induction results as [|[m s] rest IH]; intros z acc Hz Hr Hsub; simpl.
  - rewrite app_nil_r. f_equal. symmetry. induction z as [|p z IHz]; simpl; [reflexivity|].
    rewrite IHz; [reflexivity| |].
    + inversion Hz; assumption.
    + intros ? [].
  - inversion Hr as [|? ? Hm Hrest]; subst.
    unfold claimed_members. simpl. unfold parsable at 1.
    unfold claim_one. destruct (Parse m) as [u|] eqn:Hp.
    + assert (Hin : In m (members z)) by (apply Hsub; left; reflexivity).
      unfold ZRem. destruct (zrem_spec m z) as [[_ ->]|[Hn _]]; [|contradiction]. simpl.
      rewrite IH.
      * f_equal.
        -- rewrite filter_zdel. apply filter_ext_pw. intros p. simpl.
           fold (claimed_members rest). destruct (String.eqb p.1 m); reflexivity.
        -- rewrite <- app_assoc. reflexivity.
      * apply NoDup_members_zdel. exact Hz.
      * exact Hrest.
      * intros x Hx. apply In_members_zdel. split; [apply Hsub; right; exact Hx|].
        intros ->. contradiction.
    + simpl. rewrite IH; [|exact Hz|exact Hrest|intros x Hx; apply Hsub; right; exact Hx].
      f_equal. rewrite app_nil_r. reflexivity.
Qed.

Lemma claim_loop_up_length (results z : zset) (acc : list UUID) :
  List.NoDup (members z) -> List.NoDup (members results) ->
  (forall m, In m (members results) -> In m (members z)) ->
  (length (claim_loop [] z results acc).1 + length (claim_loop [] z results acc).2 = length z + length acc)%nat.
Proof.
  revert z acc. induction results as [|[m s] rest IH]; intros z acc Hz Hr Hsub; simpl; [reflexivity|].
  inversion Hr as [|? ? Hm Hrest]; subst.
  unfold claim_one. destruct (Parse m) as [u|] eqn:Hp.
  - assert (Hin : In m (members z)) by (apply Hsub; left; reflexivity).
    unfold ZRem. destruct (zrem_spec m z) as [[_ ->]|[Hn _]]; [|contradiction]. simpl.
    rewrite IH.
    + rewrite length_app. simpl. rewrite <- (length_zdel m z Hz Hin). lia.
    + apply NoDup_members_zdel. exact Hz.
    + exact Hrest.
    + intros x Hx. apply In_members_zdel. split; [apply Hsub; right; exact Hx|].
      intros ->. contradiction.
  - simpl. rewrite IH; [|exact Hz|exact Hrest|intros x Hx; apply Hsub; right; exact Hx].
    rewrite length_app. simpl. lia.
Qed.

Lemma GetDuePosts_all_up (z : zset) (now c : Z) :
  GetDuePosts [] z now c =
    ((claim_loop [] z (zrangebyscore now c z) []).1, Ok (claim_loop [] z (zrangebyscore now c z) []).2).
Proof. unfold GetDuePosts. simpl. destruct (claim_loop _ _ _ _). reflexivity. Qed.

Lemma zrange_members_sub (now c : Z) (z : zset) (m : string) :
  In m (members (zrangebyscore now c z)) -> In m (members z).
Proof.
  unfold members. intros H. apply in_map_iff in H. destruct H as [p [<- Hp]].
  apply zrange_sub in Hp. apply in_map. tauto.
Qed.

Lemma GetDuePosts_up_spec (z : zset) (now c : Z) :
  List.NoDup (members z) ->
  GetDuePosts [] z now c =
    (List.filter (fun p => negb (existsb (String.eqb p.1) (claimed_members (zrangebyscore now c z)))) z,
     Ok (omap (fun p => Parse p.1) (zrangebyscore now c z))).
Proof.
  intros Hz. rewrite GetDuePosts_all_up, claim_loop_up.
  - reflexivity.
  - exact Hz.
  - apply zrange_NoDup. exact Hz.
  - apply zrange_members_sub.
Qed.

(** X2: with a reachable Redis and members without repeats, a poll returns
    the ids of the range read that parse, in score order, and the queue
    keeps exactly the members that were not claimed. *)
Theorem GetDuePosts_reached (z : zset) (now maxCount : Z) :
  List.NoDup (members z) ->
  GetDuePosts [] z now maxCount =
    (List.filter (fun p => negb (existsb (String.eqb p.1) (claimed_members (zrangebyscore now maxCount z)))) z,
     Ok (omap (fun p => Parse p.1) (zrangebyscore now maxCount z))).
Proof. apply GetDuePosts_up_spec. Qed.

Lemma GetDuePosts_reached_witness :
  List.NoDup (members queue_three) /\
  GetDuePosts [] queue_three 10 100 = ([("junk", 3); ("x", 50)], Ok [u1]).
Proof.
  assert (Hz : List.NoDup (members queue_three)) by (cbv [queue_three members map fst u1_str]; repeat constructor; cbv [In]; intuition discriminate).
  split; [exact Hz|]. rewrite (GetDuePosts_reached queue_three 10 100 Hz). vm_compute. reflexivity.
Defined.

(** X3: after a poll with a reachable Redis, [GetQueueLength] reports the
    old length minus the number of returned ids. *)
Theorem GetDuePosts_queue_length (z z' : zset) (now maxCount : Z) (ids : list UUID) :
  List.NoDup (members z) ->
  GetDuePosts [] z now maxCount = (z', Ok ids) ->
  (GetQueueLength true z').2 = Ok (Z.of_nat (length z) - Z.of_nat (length ids)).
Proof.
  intros Hz E. rewrite GetDuePosts_all_up in E. injection E as E1 E2.
  pose proof (claim_loop_up_length (zrangebyscore now maxCount z) z [] Hz (zrange_NoDup now maxCount z Hz)
                (zrange_members_sub now maxCount z)) as L.
  rewrite E1, E2 in L. simpl in L. simpl. f_equal. lia.
Qed.

Lemma GetDuePosts_queue_length_witness :
  List.NoDup (members queue_three) /\
  GetDuePosts [] queue_three 10 100 = ([("junk", 3); ("x", 50)], Ok [u1]) /\
  (GetQueueLength true [("junk", 3); ("x", 50)]).2 = Ok 2.
Proof.
  assert (Hz : List.NoDup (members queue_three)) by (cbv [queue_three members map fst u1_str]; repeat constructor; cbv [In]; intuition discriminate).
  assert (E : GetDuePosts [] queue_three 10 100 = ([("junk", 3); ("x", 50)], Ok [u1]))
    by (vm_compute; reflexivity).
  split; [exact Hz|split; [exact E|]].
  exact (GetDuePosts_queue_length queue_three _ 10 100 [u1] Hz E).
Defined.

Lemma claim_loop_length (ls : list bool) (z results : zset) (acc : list UUID) :
  (length (claim_loop ls z results acc).2 <= length acc + length results)%nat.
Proof.
  revert ls z acc. induction results as [|[m s] rest IH]; intros ls z acc; simpl; [lia|].
  destruct (next_link ls) as [up ls'].
  destruct (claim_one up z m) as [z' o].
  etransitivity; [apply IH|]. rewrite length_app. destruct o; simpl; lia.
Qed.

Lemma claim_loop_keeps_other (ls : list bool) (z results : zset) (acc : list UUID) (m : string) (s : Z) :
  In (m, s) z -> ~ In m (members results) -> In (m, s) (claim_loop ls z results acc).1.
Proof.
  revert ls z acc. induction results as [|[m' s'] rest IH]; intros ls z acc Hin Hn; simpl; [exact Hin|].
  destruct (next_link ls) as [up ls'].
  destruct (claim_one_spec up z m') as [E | [u [_ [_ E]]]]; rewrite E; apply IH.
  - exact Hin.
  - intros H. apply Hn. right. exact H.
  - apply In_zdel. split; [exact Hin|]. simpl. intros ->. apply Hn. left. reflexivity.
  - intros H. apply Hn. right. exact H.
Qed.

(** X4: whatever the links do, a poll with a positive [maxCount] returns at
    most [maxCount] ids, and it never removes a member whose score lies in
    the future. *)
Theorem GetDuePosts_bounds (ls : list bool) (z : zset) (now maxCount : Z) :
  List.NoDup (members z) ->
  (forall ids, (GetDuePosts ls z now maxCount).2 = Ok ids -> 0 < maxCount -> (length ids <= Z.to_nat maxCount)%nat) /\
  (forall m s, In (m, s) z -> now < s -> In (m, s) (GetDuePosts ls z now maxCount).1).
Proof.
  intros Hz. unfold GetDuePosts. destruct (next_link ls) as [up ls'].
  unfold ZRangeByScoreWithScores. destruct up; simpl.
  - destruct (claim_loop ls' z (zrangebyscore now maxCount z) []) as [z2 ids2] eqn:E. simpl. split.
    + intros ids H Hc. injection H as <-.
      pose proof (claim_loop_length ls' z (zrangebyscore now maxCount z) []) as L. rewrite E in L.
      simpl in L. pose proof (zrange_length now maxCount z Hc). lia.
    + intros m s Hin Hs.
      pose proof (claim_loop_keeps_other ls' z (zrangebyscore now maxCount z) [] m s Hin) as K.
      rewrite E in K. apply K. intros Hm. unfold members in Hm. apply in_map_iff in Hm.
      destruct Hm as [[x s'] [Hx Hp]]. simpl in Hx. subst x.
      apply zrange_sub in Hp. destruct Hp as [Hp Hle]. simpl in Hle.
      pose proof (NoDup_members_same z m s s' Hz Hin Hp). lia.
  - split; [discriminate|]. auto.
Qed.

Lemma GetDuePosts_bounds_witness :
  List.NoDup (members queue_three) /\
  (forall ids, (GetDuePosts [true; false] queue_three 10 1).2 = Ok ids -> 0 < 1 ->
     (length ids <= Z.to_nat 1)%nat) /\
  (forall m s, In (m, s) queue_three -> 10 < s -> In (m, s) (GetDuePosts [true; false] queue_three 10 1).1).
Proof.
  assert (Hz : List.NoDup (members queue_three)) by (cbv [queue_three members map fst u1_str]; repeat constructor; cbv [In]; intuition discriminate).
  split; [exact Hz|]. exact (GetDuePosts_bounds [true; false] queue_three 10 1 Hz).
Defined.

Lemma zadd_NoDup (m : string) (sc : Z) (z : zset) :
  List.NoDup (members z) -> List.NoDup (members (zadd m sc z)).
Proof.
  intros H. unfold zadd. simpl. constructor.
  - intros Hin. apply In_members_zdel in Hin. tauto.
  - apply NoDup_members_zdel. exact H.
Qed.

(** X5: a post enqueued with a score at or before [now] is returned by the
    next unlimited poll, and its member is gone from the queue. *)
Theorem Enqueue_then_GetDuePosts (z : zset) (u : UUID) (sc now maxCount : Z) :
  valid_uuid u -> List.NoDup (members z) -> sc <= now -> maxCount <= 0 ->
  exists z' ids, GetDuePosts [] (Enqueue true z u sc).1 now maxCount = (z', Ok ids) /\
    In u ids /\ ~ In (UUID_String u) (members z').
Proof.
  intros Hu Hz Hsc Hc. simpl.
  assert (Hz1 : List.NoDup (members (zadd (UUID_String u) sc z))) by (apply zadd_NoDup; exact Hz).
  rewrite (GetDuePosts_up_spec _ now maxCount Hz1).
  eexists _, _. split; [reflexivity|].
  assert (HR : In (UUID_String u, sc) (zrangebyscore now maxCount (zadd (UUID_String u) sc z))).
  { apply zrange_all; [exact Hc|]. split; [left; reflexivity|exact Hsc]. }
  split.
  - eapply In_omap; [exact HR|]. simpl. apply Parse_UUID_String. exact Hu.
  - intros Hin. unfold members in Hin. apply in_map_iff in Hin. destruct Hin as [p [Hp Hin]].
    apply filter_In in Hin. destruct Hin as [_ Hf].
    assert (Hc' : In (UUID_String u) (claimed_members (zrangebyscore now maxCount (zadd (UUID_String u) sc z)))).
    { unfold claimed_members. apply filter_In. split; [eapply In_members; exact HR|].
      unfold parsable. rewrite Parse_UUID_String by exact Hu. reflexivity. }
    assert (Hex : existsb (String.eqb p.1) (claimed_members (zrangebyscore now maxCount (zadd (UUID_String u) sc z))) = true).
    { apply existsb_exists. exists (UUID_String u). split; [exact Hc'|]. apply String.eqb_eq. exact Hp. }
    rewrite Hex in Hf. discriminate.
Qed.

Lemma Enqueue_then_GetDuePosts_witness :
  valid_uuid u1 /\ List.NoDup (members queue_three) /\ 5 <= 10 /\ 0 <= 0 /\
  exists z' ids, GetDuePosts [] (Enqueue true queue_three u1 5).1 10 0 = (z', Ok ids) /\
    In u1 ids /\ ~ In (UUID_String u1) (members z').
Proof.
  assert (Hu : valid_uuid u1) by (split; [reflexivity|repeat (constructor; [lia|]); constructor]).
  assert (Hz : List.NoDup (members queue_three)) by (cbv [queue_three members map fst u1_str]; repeat constructor; cbv [In]; intuition discriminate).
  split; [exact Hu|split; [exact Hz|split; [lia|split; [lia|]]]].
  exact (Enqueue_then_GetDuePosts queue_three u1 5 10 0 Hu Hz ltac:(lia) ltac:(lia)).
Defined.

(** X6: [Queue.Update] leaves the post with exactly one member, scored at
    the new time; other members are untouched, and the length grows by one
    only if the post was not queued. *)
Theorem Update_replaces (z : zset) (u : UUID) (sc : Z) :
  List.NoDup (members z) ->
  List.NoDup (members (Update true z u sc).1) /\
  In (UUID_String u, sc) (Update true z u sc).1 /\
  (forall s, In (UUID_String u, s) (Update true z u sc).1 -> s = sc) /\
  (forall m s, m <> UUID_String u -> In (m, s) (Update true z u sc).1 <-> In (m, s) z) /\
  (GetQueueLength true (Update true z u sc).1).2 =
    Ok (Z.of_nat (length z) + (if existsb (fun p => String.eqb p.1 (UUID_String u)) z then 0 else 1)).
Proof.
  intros Hz. change ((Update true z u sc).1) with (zadd (UUID_String u) sc z).
  pose proof (zadd_NoDup (UUID_String u) sc z Hz) as Hz1.
  unfold GetQueueLength, ZCard. cbn [fst snd]. set (key := UUID_String u) in *.
  split; [exact Hz1|]. split; [left; reflexivity|]. split.
  { intros s Hs. exact (NoDup_members_same _ _ _ _ Hz1 Hs (or_introl eq_refl)). }
  split.
  { intros m s Hm. split.
    - intros [E|H]; [injection E as ->; congruence|]. apply In_zdel in H. tauto.
    - intros H. right. apply In_zdel. split; [exact H|exact Hm]. }
  f_equal. unfold zadd. simpl length. destruct (existsb _ z) eqn:E.
  - apply existsb_members in E. pose proof (length_zdel _ _ Hz E). lia.
  - rewrite zdel_notin; [lia|]. rewrite <- existsb_members, E. discriminate.
Qed.

Lemma Update_replaces_witness :
  List.NoDup (members queue_three) /\
  In (UUID_String u1, 70) (Update true queue_three u1 70).1 /\
  (GetQueueLength true (Update true queue_three u1 70).1).2 = Ok 3.
Proof.
  assert (Hz : List.NoDup (members queue_three)) by (cbv [queue_three members map fst u1_str]; repeat constructor; cbv [In]; intuition discriminate).
  destruct (Update_replaces queue_three u1 70 Hz) as (_ & H2 & _ & _ & H5).
  split; [exact Hz|split; [exact H2|]]. rewrite H5. vm_compute. reflexivity.
Defined.

(** ** C4: the queue's calls under go-redis retries *)





Lemma run_call_zrem_notin (m : string) (atts : list attempt) (z : zset) :
  ~ In m (members z) ->
  run_call (zrem_cmd m) atts z = (z, if call_ok atts then Ok 0 else Err conn_err).
Proof.
  intros H. assert (Hz : zrem m z = (0, z)).
  { destruct (zrem_spec m z) as [[H1 _]|[_ H1]]; [contradiction|exact H1]. }
  induction atts as [|[] r IH]; simpl; unfold zrem_cmd; rewrite ?Hz; simpl; auto.
Qed.

Lemma run_call_zrem_in (m : string) (atts : list attempt) (z : zset) :
  In m (members z) ->
  run_call (zrem_cmd m) atts z =
  (if call_ran atts then zdel m z else z,
   if call_ok atts then Ok (if first_ran_reached atts then 1 else 0) else Err conn_err).
Proof.
  intros H. assert (Hz : zrem m z = (1, zdel m z)).
  { destruct (zrem_spec m z) as [[_ H1]|[H1 _]]; [exact H1|contradiction]. }
  assert (Hn : ~ In m (members (zdel m z))) by (rewrite In_members_zdel; tauto).
  induction atts as [|[] r IH]; simpl.
  - reflexivity.
  - unfold zrem_cmd. rewrite Hz. reflexivity.
  - rewrite IH. unfold call_ran, call_ok, first_ran_reached. simpl. reflexivity.
  - unfold zrem_cmd at 2. rewrite Hz. simpl. rewrite (run_call_zrem_notin m r _ Hn).
    unfold first_ran_reached. simpl. destruct (call_ok r); reflexivity.
Qed.


Lemma run_call_zrem (m : string) (atts : list attempt) (z : zset) :
  (run_call (zrem_cmd m) atts z).1 = if call_ran atts then zdel m z else z.
Proof.
  destruct (in_dec string_dec m (members z)) as [H|H].
  - rewrite run_call_zrem_in by exact H. reflexivity.
  - rewrite run_call_zrem_notin by exact H. simpl. rewrite zdel_notin by exact H.
    destruct (call_ran atts); reflexivity.
Qed.



Lemma claim_one_link (up : bool) (z : zset) (m : string) :
  claim_one up z m = claim_oneR (link_call up) z m.
Proof.
  unfold claim_one, claim_oneR, ZRem. destruct (Parse m); [|reflexivity].
  destruct up; simpl; [|reflexivity]. unfold zrem_cmd. destruct (zrem m z); reflexivity.
Qed.

Lemma next_call_link (ls : list bool) :
  next_call (map link_call ls) = (link_call (next_link ls).1, map link_call (next_link ls).2).
Proof. destruct ls; reflexivity. Qed.

Lemma claim_loop_link (results : zset) : forall ls z acc,
  claim_loop ls z results acc = claim_loopR (map link_call ls) z results acc.
Proof.
  induction results as [|[m s] rest IH]; intros ls z acc; [reflexivity|].
  simpl. rewrite next_call_link. destruct (next_link ls) as [up ls']. simpl.
  rewrite claim_one_link. destruct (claim_oneR (link_call up) z m). apply IH.
Qed.

(** The two-valued links are the calls of a single attempt. *)
Lemma GetDuePosts_link_call (ls : list bool) (z : zset) (now c : Z) :
  GetDuePosts ls z now c = GetDuePostsR (map link_call ls) z now c.
Proof.
  unfold GetDuePosts, GetDuePostsR. rewrite next_call_link.
  destruct (next_link ls) as [up ls']. simpl.
  destruct up; simpl; [|reflexivity].
  rewrite claim_loop_link. reflexivity.
Qed.



Lemma publishPost_mock (now : Z) (up : bool) (st : store) (z : zset) (id : UUID) :
  publishPost mockPublish now up st z id
  = (alter (fun p => if is_scheduled p then set_published now p else p) id st, z, Ok tt).
Proof.
  unfold publishPost, GetPostForRetry, mockPublish.
  destruct (st !! id) as [p|] eqn:E.
  - destruct (is_scheduled p) eqn:S; simpl.
    + unfold PublishPost. rewrite E, S. f_equal. f_equal.
      apply map_eq. intros j. destruct (decide (j = id)) as [->|Hne].
      * rewrite lookup_insert_eq, lookup_alter_eq, E. simpl. rewrite S. reflexivity.
      * rewrite lookup_insert_ne, lookup_alter_ne by congruence. reflexivity.
    + f_equal. f_equal. symmetry. apply alter_id. intros x Hx. rewrite E in Hx.
      injection Hx as <-. rewrite S. reflexivity.
  - f_equal. f_equal. symmetry. apply alter_id. intros x Hx. rewrite E in Hx. discriminate.
Qed.

Lemma publish_all_mock (now : Z) (ids : list UUID) : forall ls st z,
  publish_all mockPublish now ls st z ids
  = (fold_left (fun s id => alter (fun p => if is_scheduled p then set_published now p else p) id s) ids st, z).
Proof.
  induction ids as [|id r IH]; intros ls st z; simpl; [reflexivity|].
  destruct (next_link ls) as [up ls'].
  rewrite publishPost_mock. apply IH.
Qed.

Lemma fold_alter_lookup (now : Z) (ids : list UUID) : forall (st : store) (k : UUID),
  (In k ids -> fold_left (fun s id => alter (fun p => if is_scheduled p then set_published now p else p) id s) ids st !! k
               = option_map (fun p => if is_scheduled p then set_published now p else p) (st !! k)) /\
  (~ In k ids -> fold_left (fun s id => alter (fun p => if is_scheduled p then set_published now p else p) id s) ids st !! k
               = st !! k).
Proof.
  induction ids as [|id r IH]; intros st k; simpl.
  - split; [tauto|reflexivity].
  - destruct (IH (alter (fun p => if is_scheduled p then set_published now p else p) id st) k) as [IH1 IH2].
    destruct (decide (k = id)) as [->|Hne].
    + split; [intros _|tauto].
      destruct (in_dec (List.list_eq_dec Z.eq_dec) id r) as [Hr|Hr].
      * rewrite IH1 by exact Hr. rewrite lookup_alter_eq.
        destruct (st !! id) as [p|]; [|reflexivity]. simpl. f_equal.
        destruct (is_scheduled p) eqn:S; [|rewrite S; reflexivity]. reflexivity.
      * rewrite IH2 by exact Hr. rewrite lookup_alter_eq. reflexivity.
    + split.
      * intros [H|H]; [congruence|]. rewrite IH1 by exact H. rewrite lookup_alter_ne by congruence. reflexivity.
      * intros H. rewrite IH2 by tauto. rewrite lookup_alter_ne by congruence. reflexivity.
Qed.

(** X7: one run of [processDuePosts] with [mockPublish]: the queue is what
    the poll left; a failed poll leaves the table alone; otherwise each
    returned id whose row is scheduled is published, and no other row
    changes. *)
Theorem processDuePosts_mock (now : Z) (ls ls2 : list bool) (st : store) (z : zset) :
  (processDuePosts mockPublish now ls ls2 st z).2 = (GetDuePosts ls z now 100).1 /\
  (forall e, (GetDuePosts ls z now 100).2 = Err e -> (processDuePosts mockPublish now ls ls2 st z).1 = st) /\
  (forall ids, (GetDuePosts ls z now 100).2 = Ok ids ->
    forall k, (In k ids -> (processDuePosts mockPublish now ls ls2 st z).1 !! k =
                           option_map (fun p => if is_scheduled p then set_published now p else p) (st !! k)) /\
              (~ In k ids -> (processDuePosts mockPublish now ls ls2 st z).1 !! k = st !! k)).
Proof.
  unfold processDuePosts. destruct (GetDuePosts ls z now 100) as [z1 [ids|e]]; simpl.
  - rewrite publish_all_mock. simpl. split; [reflexivity|]. split; [discriminate|].
    intros ids' H k. injection H as <-. apply fold_alter_lookup.
  - split; [reflexivity|]. split; [reflexivity|discriminate].
Qed.

Lemma length_append_str (a b : string) : String.length (a ++ b) = (String.length a + String.length b)%nat.
Proof. induction a; simpl; [reflexivity|]. f_equal. exact IHa. Qed.

Lemma length_substring0 (s : string) : forall k, (k <= String.length s)%nat ->
  String.length (substring 0 k s) = k.
Proof.
  induction s as [|c s IH]; intros k Hk; simpl in *.
  - destruct k; [reflexivity|lia].
  - destruct k; [reflexivity|]. simpl. f_equal. apply IH. lia.
Qed.

(** X8: [truncate] returns a short string unchanged; a longer one is cut to
    exactly [maxLen] bytes ending in ["..."] when [maxLen >= 3], and the
    slice panics ([None]) when [maxLen < 3]. *)
Theorem truncate_spec (s : string) (maxLen : Z) :
  (Z.of_nat (String.length s) <= maxLen -> truncate s maxLen = Some s) /\
  (maxLen < Z.of_nat (String.length s) -> maxLen < 3 -> truncate s maxLen = None) /\
  (maxLen < Z.of_nat (String.length s) -> 3 <= maxLen ->
   exists t, truncate s maxLen = Some t /\ Z.of_nat (String.length t) = maxLen /\
             t = String.append (substring 0 (Z.to_nat (maxLen - 3)) s) "...").
Proof.
  unfold truncate. split; [|split].
  - intros H. apply Z.leb_le in H. rewrite H. reflexivity.
  - intros H1 H2. destruct (Z.leb_spec (Z.of_nat (String.length s)) maxLen); [lia|].
    destruct (Z.ltb_spec (maxLen - 3) 0); [reflexivity|lia].
  - intros H1 H2. destruct (Z.leb_spec (Z.of_nat (String.length s)) maxLen); [lia|].
    destruct (Z.ltb_spec (maxLen - 3) 0); [lia|].
    eexists. split; [reflexivity|]. split; [|reflexivity].
    rewrite length_append_str, length_substring0 by lia. simpl. lia.
Qed.

Section Sorting.
Context {A : Type} (le : A -> A -> bool).

Lemma insert_by_perm (x : A) (l : list A) : Permutation (insert_by le x l) (x :: l).
Proof.
  induction l as [|y r IH]; simpl; [reflexivity|].
  destruct (le x y); [reflexivity|].
  rewrite IH. apply perm_swap.
Qed.

Lemma sort_by_perm (l : list A) : Permutation (sort_by le l) l.
Proof.
  induction l as [|x r IH]; simpl; [reflexivity|].
  rewrite insert_by_perm, IH. reflexivity.
Qed.

Hypothesis le_total : forall a b, le a b = false -> le b a = true.

Lemma insert_by_sorted_cons (x : A) (l : list A) : forall y,
  sorted_by le (y :: l) = true -> le y x = true -> sorted_by le (y :: insert_by le x l) = true.
Proof.
  induction l as [|w r IH]; intros y Hs Hyx; simpl in *.
  - rewrite Hyx. reflexivity.
  - apply andb_prop in Hs as [Hyw Hs].
    destruct (le x w) eqn:Hxw; simpl.
    + rewrite Hyx, Hxw. simpl. exact Hs.
    + rewrite Hyw. simpl. apply IH; [exact Hs|]. apply le_total. exact Hxw.
Qed.

Lemma insert_by_sorted (x : A) (l : list A) :
  sorted_by le l = true -> sorted_by le (insert_by le x l) = true.
Proof.
  destruct l as [|y r]; intros Hs; simpl; [reflexivity|].
  destruct (le x y) eqn:Hxy.
  - simpl. rewrite Hxy. exact Hs.
  - apply insert_by_sorted_cons; [exact Hs|]. apply le_total. exact Hxy.
Qed.

Lemma sort_by_sorted (l : list A) : sorted_by le (sort_by le l) = true.
Proof.
  induction l as [|x r IH]; simpl; [reflexivity|]. apply insert_by_sorted. exact IH.
Qed.

End Sorting.

Lemma sorted_by_map {A B} (le : B -> B -> bool) (f : A -> B) (le' : A -> A -> bool) (l : list A) :
  (forall a b, le (f a) (f b) = le' a b) -> sorted_by le (map f l) = sorted_by le' l.
Proof.
  intros Hf. induction l as [|x r IH]; [reflexivity|].
  destruct r as [|y r']; [reflexivity|].
  change (le (f x) (f y) && sorted_by le (map f (y :: r')) = le' x y && sorted_by le' (y :: r')).
  rewrite Hf, IH. reflexivity.
Qed.

Lemma sorted_by_firstn {A} (le : A -> A -> bool) (l : list A) : forall n,
  sorted_by le l = true -> sorted_by le (firstn n l) = true.
Proof.
  induction l as [|x r IH]; intros n Hs; destruct n as [|n]; try reflexivity.
  destruct r as [|y r']; [destruct n; reflexivity|].
  simpl in Hs. apply andb_prop in Hs as [Hxy Hs].
  destruct n as [|n]; [reflexivity|].
  change (sorted_by le (x :: firstn (S n) (y :: r')) = true).
  change (firstn (S n) (y :: r')) with (y :: firstn n r').
  simpl. rewrite Hxy. simpl.
  specialize (IH (S n) Hs). exact IH.
Qed.

Lemma scheduled_asc_total (a b : Post) : scheduled_asc a b = false -> scheduled_asc b a = true.
Proof. unfold scheduled_asc. intros H. apply Z.leb_gt in H. apply Z.leb_le. lia. Qed.

Lemma published_desc_total (a b : Post) : published_desc a b = false -> published_desc b a = true.
Proof.
  unfold published_desc.
  destruct (PublishedAt a) as [x|], (PublishedAt b) as [y|]; try discriminate; try reflexivity.
  intros H. apply Z.leb_gt in H. apply Z.leb_le. lia.
Qed.

Lemma In_rows (st : store) (p : Post) : In p (rows st) <-> exists k, st !! k = Some p.
Proof.
  unfold rows. rewrite in_map_iff. split.
  - intros [[k q] [Hq Hin]]. simpl in Hq. subst q. exists k.
    apply elem_of_map_to_list. apply list_elem_of_In. exact Hin.
  - intros [k Hk]. exists (k, p). split; [reflexivity|].
    apply list_elem_of_In. apply elem_of_map_to_list. exact Hk.
Qed.

Lemma In_query (st : store) (f : Post -> bool) (le : Post -> Post -> bool) (q : Post) :
  In q (map select_cols (sort_by le (List.filter f (rows st))))
  <-> exists k p, st !! k = Some p /\ f p = true /\ q = select_cols p.
Proof.
  rewrite in_map_iff. split.
  - intros [p [<- Hin]].
    apply (Permutation_in _ (sort_by_perm le _)) in Hin.
    apply filter_In in Hin as [Hin Hf]. apply In_rows in Hin as [k Hk].
    exists k, p. auto.
  - intros (k & p & Hk & Hf & ->). exists p. split; [reflexivity|].
    apply (Permutation_in _ (Permutation_sym (sort_by_perm le _))).
    apply filter_In. split; [|exact Hf]. apply In_rows. exists k. exact Hk.
Qed.

Lemma upcoming_In (st : store) (userID : UUID) (q : Post) :
  In q (GetUpcomingPosts st userID) <->
  exists k p, st !! k = Some p /\ UserID p = userID /\ is_scheduled p = true /\ q = select_cols p.
Proof.
  unfold GetUpcomingPosts. rewrite In_query. split.
  - intros (k & p & Hk & Hf & ->). apply andb_prop in Hf as [Hu Hs].
    apply bool_decide_eq_true in Hu. exists k, p. auto.
  - intros (k & p & Hk & Hu & Hs & ->). exists k, p. repeat split; auto.
    rewrite Hs, andb_true_r. apply bool_decide_eq_true. exact Hu.
Qed.

Lemma published_In (st : store) (userID : UUID) (q : Post) :
  In q (GetPublishedPosts st userID) <->
  exists k p, st !! k = Some p /\ UserID p = userID /\ is_published p = true /\ q = select_cols p.
Proof.
  unfold GetPublishedPosts. rewrite In_query. split.
  - intros (k & p & Hk & Hf & ->). apply andb_prop in Hf as [Hu Hs].
    apply bool_decide_eq_true in Hu. exists k, p. auto.
  - intros (k & p & Hk & Hu & Hs & ->). exists k, p. repeat split; auto.
    rewrite Hs, andb_true_r. apply bool_decide_eq_true. exact Hu.
Qed.

(** X9: [GetUpcomingPosts] returns the selected columns of exactly the
    user's scheduled rows, in ascending [scheduled_at] order. *)
Theorem GetUpcomingPosts_spec (st : store) (userID : UUID) :
  (forall q, In q (GetUpcomingPosts st userID) <->
     exists k p, st !! k = Some p /\ UserID p = userID /\ is_scheduled p = true /\ q = select_cols p) /\
  sorted_by scheduled_asc (GetUpcomingPosts st userID) = true.
Proof.
  split; [apply upcoming_In|]. unfold GetUpcomingPosts.
  rewrite (sorted_by_map scheduled_asc select_cols scheduled_asc) by reflexivity.
  apply sort_by_sorted. apply scheduled_asc_total.
Qed.

(** X10: [GetPublishedPosts] returns the selected columns of exactly the
    user's published rows, in descending [published_at] order, NULL first. *)
Theorem GetPublishedPosts_spec (st : store) (userID : UUID) :
  (forall q, In q (GetPublishedPosts st userID) <->
     exists k p, st !! k = Some p /\ UserID p = userID /\ is_published p = true /\ q = select_cols p) /\
  sorted_by published_desc (GetPublishedPosts st userID) = true.
Proof.
  split; [apply published_In|]. unfold GetPublishedPosts.
  rewrite (sorted_by_map published_desc select_cols published_desc) by reflexivity.
  apply sort_by_sorted. apply published_desc_total.
Qed.

(** X11: publishing a scheduled post takes it off its owner's upcoming list,
    leaves the rest of that list, and puts the published row on the
    owner's history. *)
Theorem PublishPost_moves (now : Z) (st : store) (id : UUID) (p : Post)
  (Hkeyed : rows_keyed st) (Hp : st !! id = Some p) (Hs : is_scheduled p = true) :
  (forall q, In q (GetUpcomingPosts (PublishPost now st id).1 (UserID p)) <->
             In q (GetUpcomingPosts st (UserID p)) /\ ID q <> id) /\
  In (select_cols (set_published now p)) (GetPublishedPosts (PublishPost now st id).1 (UserID p)).
Proof.
  unfold PublishPost. rewrite Hp, Hs. simpl. split.
  - intros q. rewrite !upcoming_In. split.
    + intros (k & p' & Hk & Hu & Hs' & ->).
      destruct (decide (k = id)) as [->|Hne].
      * rewrite lookup_insert_eq in Hk. injection Hk as <-. discriminate Hs'.
      * rewrite lookup_insert_ne in Hk by congruence. split; [exists k, p'; auto|].
        simpl. rewrite (Hkeyed k p' Hk). exact Hne.
    + intros [(k & p' & Hk & Hu & Hs' & ->) Hid]. simpl in Hid.
      rewrite (Hkeyed k p' Hk) in Hid.
      exists k, p'. rewrite lookup_insert_ne by congruence. auto.
  - apply published_In. exists id, (set_published now p).
    rewrite lookup_insert_eq. repeat split.
Qed.

Lemma PublishPost_moves_witness :
  rows_keyed store_one /\ store_one !! u1 = Some post_scheduled /\ is_scheduled post_scheduled = true /\
  In (select_cols (set_published 1000 post_scheduled)) (GetPublishedPosts (PublishPost 1000 store_one u1).1 [7]).
Proof.
  assert (Hk : rows_keyed store_one).
  { intros k p H. unfold store_one in H. apply lookup_singleton_Some in H as [<- <-]. reflexivity. }
  assert (Hp : store_one !! u1 = Some post_scheduled) by reflexivity.
  assert (Hs : is_scheduled post_scheduled = true) by reflexivity.
  split; [exact Hk|split; [exact Hp|split; [exact Hs|]]].
  exact (proj2 (PublishPost_moves 1000 store_one u1 post_scheduled Hk Hp Hs)).
Defined.

(** X12: [UpdatePost] and [DeletePost] called for [userID] change no row
    that belongs to another user or is not scheduled. *)
Theorem owner_guard (now : Z) (st : store) (id userID : UUID) (title content channel : option string)
  (scheduledAt : option Z) (k : UUID) (q : Post)
  (Hq : st !! k = Some q) (Hguard : UserID q <> userID \/ is_scheduled q = false) :
  (UpdatePost now st id userID title content channel scheduledAt).1 !! k = Some q /\
  (DeletePost st id userID).1 !! k = Some q.
Proof.
  unfold UpdatePost, DeletePost.
  destruct (st !! id) as [p|] eqn:E; [|split; exact Hq].
  destruct (bool_decide (UserID p = userID) && is_scheduled p) eqn:G; [|split; exact Hq].
  apply andb_prop in G as [Gu Gs]. apply bool_decide_eq_true in Gu.
  destruct (decide (k = id)) as [->|Hne].
  - rewrite E in Hq. injection Hq as ->. destruct Hguard; congruence.
  - simpl. rewrite lookup_insert_ne, lookup_delete_ne by congruence. split; exact Hq.
Qed.

Lemma owner_guard_witness :
  store_one !! u1 = Some post_scheduled /\
  (UserID post_scheduled <> [8] \/ is_scheduled post_scheduled = false) /\
  (UpdatePost 0 store_one u1 [8] (Some "x") None None None).1 !! u1 = Some post_scheduled /\
  (DeletePost store_one u1 [8]).1 !! u1 = Some post_scheduled.
Proof.
  assert (Hq : store_one !! u1 = Some post_scheduled) by reflexivity.
  assert (Hg : UserID post_scheduled <> [8] \/ is_scheduled post_scheduled = false)
    by (left; simpl; discriminate).
  split; [exact Hq|split; [exact Hg|]].
  exact (owner_guard 0 store_one u1 [8] (Some "x") None None None u1 post_scheduled Hq Hg).
Defined.

(** X13: [UpdatePost] never changes a row's id, owner, status or creation
    time, and never adds a row. *)
Theorem UpdatePost_keeps_identity (now : Z) (st : store) (id userID : UUID)
  (title content channel : option string) (scheduledAt : option Z) (k : UUID) (q' : Post)
  (Hq' : (UpdatePost now st id userID title content channel scheduledAt).1 !! k = Some q') :
  exists q, st !! k = Some q /\ ID q' = ID q /\ UserID q' = UserID q /\ Status q' = Status q /\
            CreatedAt q' = CreatedAt q.
Proof.
  revert Hq'. unfold UpdatePost.
  destruct (st !! id) as [p|] eqn:E; [|intros H; exists q'; auto].
  destruct (bool_decide (UserID p = userID) && is_scheduled p); [|intros H; exists q'; auto].
  simpl. destruct (decide (k = id)) as [->|Hne].
  - rewrite lookup_insert_eq. intros H. injection H as <-. exists p. auto.
  - rewrite lookup_insert_ne by congruence. intros H. exists q'. auto.
Qed.

Lemma UpdatePost_keeps_identity_witness :
  (UpdatePost 5 store_one u1 [7] (Some "new") None None None).1 !! u1 =
    Some (set_fields 5 (Some "new") None None None post_scheduled) /\
  exists q, store_one !! u1 = Some q /\
    ID (set_fields 5 (Some "new") None None None post_scheduled) = ID q /\
    UserID (set_fields 5 (Some "new") None None None post_scheduled) = UserID q /\
    Status (set_fields 5 (Some "new") None None None post_scheduled) = Status q /\
    CreatedAt (set_fields 5 (Some "new") None None None post_scheduled) = CreatedAt q.
Proof.
  assert (H : (UpdatePost 5 store_one u1 [7] (Some "new") None None None).1 !! u1 =
              Some (set_fields 5 (Some "new") None None None post_scheduled)) by reflexivity.
  split; [exact H|].
  exact (UpdatePost_keeps_identity 5 store_one u1 [7] (Some "new") None None None u1 _ H).
Defined.

Lemma firstn_length_le_nat {A} (n : nat) (l : list A) : (length (firstn n l) <= n)%nat.
Proof. rewrite length_firstn. lia. Qed.

(** X14: [db.GetDuePosts] fails on a negative limit; otherwise it returns
    at most [limit] rows, in ascending [scheduled_at] order, each a
    scheduled row that is due, and every due row once the limit reaches
    the table size. *)
Theorem DB_GetDuePosts_spec (now : Z) (st : store) (limit : Z) :
  (limit < 0 -> exists e, DB.GetDuePosts now st limit = Err e) /\
  (forall ps, DB.GetDuePosts now st limit = Ok ps ->
     (length ps <= Z.to_nat limit)%nat /\
     sorted_by scheduled_asc ps = true /\
     (forall q, In q ps -> exists k p, st !! k = Some p /\ is_scheduled p = true /\
                                     ScheduledAt p <= now /\ q = select_cols p) /\
     (Z.of_nat (length (rows st)) <= limit ->
      forall k p, st !! k = Some p -> is_scheduled p = true -> ScheduledAt p <= now ->
      In (select_cols p) ps)).
Proof.
  unfold DB.GetDuePosts. split.
  - intros H. apply Z.ltb_lt in H. rewrite H. eexists. reflexivity.
  - intros ps. destruct (Z.ltb_spec limit 0); [discriminate|].
    intros Hps. injection Hps as <-.
    set (due := List.filter (fun p => is_scheduled p && (ScheduledAt p <=? now)) (rows st)).
    split; [|split; [|split]].
    + rewrite length_map. apply firstn_length_le_nat.
    + rewrite (sorted_by_map scheduled_asc select_cols scheduled_asc) by reflexivity.
      apply sorted_by_firstn. apply sort_by_sorted. apply scheduled_asc_total.
    + intros q Hq. apply in_map_iff in Hq as [p [<- Hin]].
      apply firstn_in in Hin.
      apply (Permutation_in _ (sort_by_perm scheduled_asc _)) in Hin.
      apply filter_In in Hin as [Hin Hf]. apply andb_prop in Hf as [Hs Hle].
      apply Z.leb_le in Hle. apply In_rows in Hin as [k Hk]. exists k, p. auto.
    + intros Hlen k p Hk Hs Hle. apply in_map.
      rewrite firstn_all2.
      * apply (Permutation_in _ (Permutation_sym (sort_by_perm scheduled_asc _))).
        apply filter_In. split; [apply In_rows; exists k; exact Hk|].
        rewrite Hs. apply Z.leb_le. exact Hle.
      * rewrite (Permutation_length (sort_by_perm scheduled_asc _)).
        unfold due. pose proof (List.filter_length_le (fun p => is_scheduled p && (ScheduledAt p <=? now)) (rows st)). lia.
Qed.

(** X15: after [DeletePost] succeeds, the worker's [publishPost] for that id
    (reached through a queue member left behind) changes neither the table
    nor the queue, whatever the publisher and the link. *)
Theorem DeletePost_then_publishPost (st st' : store) (id userID : UUID)
  (Hdel : DeletePost st id userID = (st', true)) :
  forall publish now up z, publishPost publish now up st' z id = (st', z, Ok tt).
Proof.
  revert Hdel. unfold DeletePost.
  destruct (st !! id) as [p|] eqn:E; [|discriminate].
  destruct (bool_decide (UserID p = userID) && is_scheduled p); [|discriminate].
  intros H. injection H as <-. intros publish now up z.
  unfold publishPost, GetPostForRetry. rewrite lookup_delete_eq. reflexivity.
Qed.

Lemma DeletePost_then_publishPost_witness :
  DeletePost store_one u1 [7] = (delete u1 store_one, true) /\
  publishPost failing_publisher 1000 true (delete u1 store_one) [(u1_str, 900)] u1 =
    (delete u1 store_one, [(u1_str, 900)], Ok tt).
Proof.
  assert (H : DeletePost store_one u1 [7] = (delete u1 store_one, true)) by reflexivity.
  split; [exact H|].
  exact (DeletePost_then_publishPost store_one _ u1 [7] H failing_publisher 1000 true [(u1_str, 900)]).
Defined.

Lemma remove_first_app (ch : nat) (l : list nat) : ~ In ch l -> remove_first ch (l ++ [ch]) = Some l.
Proof.
  induction l as [|x r IH]; intros Hn; simpl.
  - rewrite Nat.eqb_refl. reflexivity.
  - destruct (Nat.eqb_spec x ch) as [->|Hne]; [simpl in Hn; tauto|].
    rewrite IH by (simpl in Hn; tauto). reflexivity.
Qed.

Lemma remove_first_in (ch : nat) (l : list nat) :
  In ch l -> exists l', remove_first ch l = Some l' /\ S (length l') = length l.
Proof.
  induction l as [|x r IH]; intros Hin; [destruct Hin|]. simpl.
  destruct (Nat.eqb_spec x ch) as [->|Hne]; [eexists; split; reflexivity|].
  destruct Hin as [->|Hin]; [congruence|].
  destruct (IH Hin) as [l' [-> Hl]]. eexists. split; [reflexivity|]. simpl. lia.
Qed.

Lemma remove_first_notin (ch : nat) (l : list nat) : ~ In ch l -> remove_first ch l = None.
Proof.
  induction l as [|x r IH]; intros Hn; simpl; [reflexivity|].
  destruct (Nat.eqb_spec x ch) as [->|Hne]; [simpl in Hn; tauto|].
  rewrite IH by (simpl in Hn; tauto). reflexivity.
Qed.

Lemma subs_of_after_unsub (n : Notifier) (u v : UUID) (l' : list nat) :
  default [] ((match l' with [] => delete u (subscribers n) | _ => <[u := l']> (subscribers n) end) !! v)
  = if bool_decide (v = u) then l' else subs_of n v.
Proof.
  case_bool_decide as E.
  - subst. destruct l'; [rewrite lookup_delete_eq|rewrite lookup_insert_eq]; reflexivity.
  - destruct l'; [rewrite lookup_delete_ne|rewrite lookup_insert_ne]; try congruence; reflexivity.
Qed.

(** X16: unsubscribing the channel [Subscribe] just returned gives every
    user back the channel list it had, and closes that channel. *)
Theorem Subscribe_Unsubscribe (n : Notifier) (userID : UUID) (Hwf : notifier_wf n) :
  (forall v, subs_of (Unsubscribe (Subscribe n userID).1 userID (Subscribe n userID).2) v = subs_of n v) /\
  chans (Unsubscribe (Subscribe n userID).1 userID (Subscribe n userID).2) = delete (next_chan n) (chans n) /\
  (Subscribe n userID).2 = next_chan n.
Proof.
  assert (Hn : ~ In (next_chan n) (subs_of n userID)).
  { intros H. apply (proj2 (Hwf userID)) in H. lia. }
  assert (H1 : subs_of (Subscribe n userID).1 userID = subs_of n userID ++ [next_chan n]).
  { unfold subs_of at 1. simpl. rewrite lookup_insert_eq. reflexivity. }
  change ((Subscribe n userID).2) with (next_chan n).
  unfold Unsubscribe. rewrite H1, remove_first_app by exact Hn.
  change (subscribers (Subscribe n userID).1)
    with (<[userID:=subs_of n userID ++ [next_chan n]]> (subscribers n)).
  change (chans (Subscribe n userID).1) with (<[next_chan n := []]> (chans n)).
  split; [|split; [|reflexivity]].
  - intros v. unfold subs_of at 1. cbn [subscribers].
    destruct (subs_of n userID) as [|x r] eqn:E.
    + rewrite delete_insert_eq.
      destruct (decide (v = userID)) as [->|Hne].
      * rewrite lookup_delete_eq. simpl. symmetry. exact E.
      * rewrite lookup_delete_ne by congruence. reflexivity.
    + rewrite insert_insert_eq.
      destruct (decide (v = userID)) as [->|Hne].
      * rewrite lookup_insert_eq. simpl. symmetry. exact E.
      * rewrite lookup_insert_ne by congruence. reflexivity.
  - simpl. apply delete_insert_eq.
Qed.

Lemma Subscribe_Unsubscribe_witness :
  notifier_wf notifier_two /\
  forall v, subs_of (Unsubscribe (Subscribe notifier_two [7]).1 [7] (Subscribe notifier_two [7]).2) v =
            subs_of notifier_two v.
Proof.
  assert (Hwf : notifier_wf notifier_two).
  { unfold notifier_two. apply Subscribe_wf, Subscribe_wf, emptyNotifier_wf. }
  split; [exact Hwf|]. exact (proj1 (Subscribe_Unsubscribe notifier_two [7] Hwf)).
Defined.

Lemma tsum_comm (j1 j2 : UUID) (z1 z2 : list nat) (y : nat) :
  ((y + length z2) + length z1)%nat = ((y + length z1) + length z2)%nat.
Proof. lia. Qed.

Lemma tsum_delete (m : gmap UUID (list nat)) (u : UUID) :
  map_fold (fun _ subs total => (total + length subs)%nat) 0%nat m =
  (map_fold (fun _ subs total => (total + length subs)%nat) 0%nat (delete u m) + length (default [] (m !! u)))%nat.
Proof.
  destruct (m !! u) as [l|] eqn:E.
  - rewrite (map_fold_delete_L (fun _ subs total => (total + length subs)%nat) 0%nat u l m).
    + reflexivity.
    + intros. lia.
    + exact E.
  - rewrite delete_id by exact E. simpl. lia.
Qed.

Lemma tsum_insert (m : gmap UUID (list nat)) (u : UUID) (l : list nat) :
  map_fold (fun _ subs total => (total + length subs)%nat) 0%nat (<[u := l]> m) =
  (map_fold (fun _ subs total => (total + length subs)%nat) 0%nat (delete u m) + length l)%nat.
Proof.
  rewrite <- insert_delete_eq.
  rewrite (map_fold_insert_L (fun _ subs total => (total + length subs)%nat) 0%nat u l (delete u m)).
  - reflexivity.
  - intros. lia.
  - apply lookup_delete_eq.
Qed.

(** X17: [Subscribe] adds one to the user's [SubscriberCount], leaves the
    other users' counts, and adds one to [TotalSubscribers]. *)
Theorem Subscribe_counts (n : Notifier) (userID : UUID) :
  (forall v, SubscriberCount (Subscribe n userID).1 v =
             (SubscriberCount n v + if bool_decide (v = userID) then 1 else 0)%nat) /\
  TotalSubscribers (Subscribe n userID).1 = S (TotalSubscribers n).
Proof.
  split.
  - intros v. unfold SubscriberCount, subs_of at 1. simpl.
    destruct (decide (v = userID)) as [->|Hne].
    + rewrite lookup_insert_eq, bool_decide_true by reflexivity. simpl.
      rewrite length_app. reflexivity.
    + rewrite lookup_insert_ne, bool_decide_false by congruence. simpl. unfold subs_of. lia.
  - unfold TotalSubscribers. simpl. rewrite tsum_insert.
    rewrite (tsum_delete (subscribers n) userID). rewrite length_app. simpl.
    unfold subs_of. lia.
Qed.

(** X18: unsubscribing a registered channel takes one off the user's count
    and the total and closes it; an unknown channel changes nothing. *)
Theorem Unsubscribe_counts (n : Notifier) (userID : UUID) (ch : nat) :
  (In ch (subs_of n userID) ->
     SubscriberCount (Unsubscribe n userID ch) userID = (SubscriberCount n userID - 1)%nat /\
     TotalSubscribers (Unsubscribe n userID ch) = (TotalSubscribers n - 1)%nat /\
     chans (Unsubscribe n userID ch) !! ch = None) /\
  (~ In ch (subs_of n userID) ->
     (forall v, subs_of (Unsubscribe n userID ch) v = subs_of n v) /\
     chans (Unsubscribe n userID ch) = chans n).
Proof.
  split.
  - intros Hin. destruct (remove_first_in ch _ Hin) as [l' [Hr Hl]].
    unfold Unsubscribe. rewrite Hr. unfold SubscriberCount, TotalSubscribers, subs_of at 1. simpl.
    rewrite subs_of_after_unsub, bool_decide_true by reflexivity.
    split; [lia|split; [|apply lookup_delete_eq]].
    rewrite (tsum_delete (subscribers n) userID). fold (subs_of n userID).
    destruct l' as [|x r].
    + simpl in Hl. rewrite <- Hl. rewrite Nat.add_sub. reflexivity.
    + rewrite tsum_insert. lia.
  - intros Hn. unfold Unsubscribe. rewrite remove_first_notin by exact Hn. simpl.
    split; [|reflexivity]. intros v. unfold subs_of at 1. simpl.
    rewrite subs_of_after_unsub. case_bool_decide; [subst; reflexivity|reflexivity].
Qed.

Lemma filter_ext_in {A} (f g : A -> bool) (l : list A) :
  (forall x, In x l -> f x = g x) -> List.filter f l = List.filter g l.
Proof.
  induction l as [|x r IH]; intros H; simpl; [reflexivity|].
  rewrite (H x (or_introl eq_refl)), IH by (intros y Hy; apply H; right; exact Hy). reflexivity.
Qed.

Lemma send_all_count (upd : PostUpdate) (chs : list nat) : forall bufs sent,
  List.NoDup chs ->
  (send_all upd chs bufs sent).2 =
  (sent + length (List.filter (fun ch => match bufs !! ch with
                                         | Some buf => (length buf <? chanCap)%nat
                                         | None => false
                                         end) chs))%nat.
Proof.
  induction chs as [|ch r IH]; intros bufs sent Hnd; simpl; [lia|].
  inversion Hnd as [|? ? Hn Hnd']; subst.
  destruct (bufs !! ch) as [buf|] eqn:E.
  - destruct (length buf <? chanCap)%nat eqn:R.
    + rewrite IH by exact Hnd'. simpl.
      rewrite (filter_ext_in _ (fun ch0 => match bufs !! ch0 with
                                           | Some buf => (length buf <? chanCap)%nat
                                           | None => false end)); [lia|].
      intros x Hx. rewrite lookup_insert_ne by (intros ->; contradiction). reflexivity.
    + rewrite IH by exact Hnd'. reflexivity.
  - rewrite IH by exact Hnd'. reflexivity.
Qed.

(** X19: on a well-formed registry the count [notifyLocal] returns is the
    number of the user's channels with room in their buffer, never more
    than [SubscriberCount]. *)
Theorem notifyLocal_count (n : Notifier) (userID : UUID) (updateType : UpdateType) (Hwf : notifier_wf n) :
  (notifyLocal n userID updateType).2 = room_count n userID /\
  (room_count n userID <= SubscriberCount n userID)%nat.
Proof.
  unfold room_count, SubscriberCount. split.
  - unfold notifyLocal. destruct (subs_of n userID) as [|ch r] eqn:E; [reflexivity|].
    rewrite <- E.
    destruct (send_all (mkPostUpdate userID updateType) (subs_of n userID) (chans n) 0) as [bufs sent] eqn:Es.
    cbn [snd]. change sent with (bufs, sent).2. rewrite <- Es.
    apply send_all_count. apply (proj1 (Hwf userID)).
  - apply List.filter_length_le.
Qed.

Lemma notifyLocal_count_witness :
  notifier_wf notifier_two /\ (notifyLocal notifier_two [7] UpdateTypeCreate).2 = 2%nat.
Proof.
  assert (Hwf : notifier_wf notifier_two).
  { unfold notifier_two. apply Subscribe_wf, Subscribe_wf, emptyNotifier_wf. }
  split; [exact Hwf|].
  rewrite (proj1 (notifyLocal_count notifier_two [7] UpdateTypeCreate Hwf)). vm_compute. reflexivity.
Defined.

Lemma upcoming_history_keys (u v : UUID) : Cache.upcomingKey u <> Cache.historyKey v.
Proof. unfold Cache.upcomingKey, Cache.historyKey. intros H. apply (f_equal (String.get 12)) in H. vm_compute in H. discriminate H. Qed.

Lemma append_cancel_l (p x y : string) : String.append p x = String.append p y -> x = y.
Proof. induction p as [|c p IH]; simpl; [tauto|]. intros H. injection H. exact IH. Qed.


Lemma getPosts_delete_ne (now : Z) (c : Cache.kv) (k k' : string) :
  k <> k' -> Cache.getPosts true now (delete k c) k' = Cache.getPosts true now c k'.
Proof. intros H. unfold Cache.getPosts, Cache.get. rewrite lookup_delete_ne by exact H. reflexivity. Qed.






Lemma upcomingKey_inj (u v : UUID) : valid_uuid u -> valid_uuid v -> Cache.upcomingKey u = Cache.upcomingKey v -> u = v.
Proof. intros Hu Hv H. apply append_cancel_l in H. exact (UUID_String_inj u v Hu Hv H). Qed.

Lemma historyKey_inj (u v : UUID) : valid_uuid u -> valid_uuid v -> Cache.historyKey u = Cache.historyKey v -> u = v.
Proof. intros Hu Hv H. apply append_cancel_l in H. exact (UUID_String_inj u v Hu Hv H). Qed.

(** X21: [InvalidateUserPosts] makes both cached lists of the user miss and
    leaves every other user's cached lists; on a down link it changes
    nothing and returns the error. *)
Theorem InvalidateUserPosts_spec (t : Z) (c : Cache.kv) (u v : UUID)
  (Hu : valid_uuid u) (Hv : valid_uuid v) (Huv : u <> v) :
  Cache.GetUpcomingPosts true t (Cache.InvalidateUserPosts true c u).1 u = None /\
  Cache.GetHistoryPosts true t (Cache.InvalidateUserPosts true c u).1 u = None /\
  Cache.GetUpcomingPosts true t (Cache.InvalidateUserPosts true c u).1 v = Cache.GetUpcomingPosts true t c v /\
  Cache.GetHistoryPosts true t (Cache.InvalidateUserPosts true c u).1 v = Cache.GetHistoryPosts true t c v /\
  Cache.InvalidateUserPosts false c u = (c, Err conn_err).
Proof.
  unfold Cache.InvalidateUserPosts, Cache.GetUpcomingPosts, Cache.GetHistoryPosts. cbn [fst].
  split; [|split; [|split; [|split]]].
  - unfold Cache.getPosts, Cache.get.
    rewrite lookup_delete_ne by (intros H; symmetry in H; exact (upcoming_history_keys _ _ H)).
    rewrite lookup_delete_eq. reflexivity.
  - unfold Cache.getPosts, Cache.get. rewrite lookup_delete_eq. reflexivity.
  - rewrite getPosts_delete_ne by (intros H; symmetry in H; exact (upcoming_history_keys _ _ H)).
    apply getPosts_delete_ne. intros H. apply Huv. exact (upcomingKey_inj u v Hu Hv H).
  - rewrite getPosts_delete_ne by (intros H; apply Huv; exact (historyKey_inj u v Hu Hv H)).
    apply getPosts_delete_ne. exact (upcoming_history_keys _ _).
  - reflexivity.
Qed.

Lemma InvalidateUserPosts_spec_witness :
  valid_uuid u1 /\ valid_uuid u2 /\ u1 <> u2 /\
  Cache.GetUpcomingPosts true 5
    (Cache.InvalidateUserPosts true
       (<[Cache.upcomingKey u2 := (Cache.CPosts [], 100)]>
          (<[Cache.upcomingKey u1 := (Cache.CPosts [post_scheduled], 100)]> ∅)) u1).1 u2 = Some [].
Proof.
  assert (Hu : valid_uuid u1) by (split; [reflexivity|repeat (constructor; [lia|]); constructor]).
  assert (Hv : valid_uuid u2) by (split; [reflexivity|repeat (constructor; [lia|]); constructor]).
  assert (Huv : u1 <> u2) by discriminate.
  split; [exact Hu|split; [exact Hv|split; [exact Huv|]]].
  rewrite (proj1 (proj2 (proj2 (InvalidateUserPosts_spec 5
    (<[Cache.upcomingKey u2 := (Cache.CPosts [], 100)]>
       (<[Cache.upcomingKey u1 := (Cache.CPosts [post_scheduled], 100)]> ∅)) u1 u2 Hu Hv Huv)))).
  vm_compute. reflexivity.
Defined.




Lemma fingerprints_app (a b : list Frame) : fingerprints (a ++ b) = fingerprints a ++ fingerprints b.
Proof. induction a as [|f r IH]; [reflexivity|]. destruct f; simpl; rewrite IH; reflexivity. Qed.

Lemma adjacent_distinct_snoc (l : list (string * string)) (y : string * string) :
  adjacent_distinct l = true -> last l <> Some y -> adjacent_distinct (l ++ [y]) = true.
Proof.
  induction l as [|x r IH]; intros Hd Hl; [reflexivity|].
  destruct r as [|x' r'].
  - simpl. rewrite bool_decide_false; [reflexivity|]. intros ->. apply Hl. reflexivity.
  - change (negb (bool_decide (x = x')) && adjacent_distinct ((x' :: r') ++ [y]) = true).
    simpl in Hd. apply andb_prop in Hd as [Hx Hd]. rewrite Hx. simpl. apply IH; [exact Hd|].
    exact Hl.
Qed.

Lemma sse_step_inv (st : SSEState) (ev : SSEEvent) :
  tick_encodes ev = true ->
  adjacent_distinct (fingerprints (frames st)) = true ->
  (running st = true -> last (fingerprints (frames st)) = None \/
                        last (fingerprints (frames st)) = Some (lastUpcomingHash st, lastHistoryHash st)) ->
  adjacent_distinct (fingerprints (frames (sse_step st ev))) = true /\
  (running (sse_step st ev) = true ->
   last (fingerprints (frames (sse_step st ev))) = None \/
   last (fingerprints (frames (sse_step st ev))) =
     Some (lastUpcomingHash (sse_step st ev), lastHistoryHash (sse_step st ev))).
Proof.
  intros Henc Hd Hl. unfold sse_step. destruct (running st) eqn:R; [|simpl; rewrite R; auto].
  specialize (Hl eq_refl). simpl.
  destruct ev as [|ok|up hist ok].
  - simpl. split; [exact Hd|discriminate].
  - destruct ok; simpl; [|split; [exact Hd|discriminate]].
    rewrite fingerprints_app. simpl. rewrite app_nil_r. auto.
  - destruct up as [u|e]; [|rewrite R; auto].
    destruct hist as [h|e]; [|rewrite R; auto].
    destruct (negb (String.eqb (hashPosts u) (lastUpcomingHash st)) ||
              negb (String.eqb (hashPosts h) (lastHistoryHash st))) eqn:C; [|rewrite R; auto].
    simpl in Henc. rewrite Henc. simpl.
    destruct ok; simpl; [|split; [exact Hd|discriminate]].
    rewrite fingerprints_app. simpl. split.
    + apply adjacent_distinct_snoc; [exact Hd|].
      destruct Hl as [Hl|Hl]; rewrite Hl; [discriminate|].
      intros He. injection He as E1 E2.
      rewrite E1, E2, !String.eqb_refl in C. discriminate C.
    + intros _. right. apply last_snoc.
Qed.

Lemma sse_run_inv (evs : list SSEEvent) : forall st,
  forallb tick_encodes evs = true ->
  adjacent_distinct (fingerprints (frames st)) = true ->
  (running st = true -> last (fingerprints (frames st)) = None \/
                        last (fingerprints (frames st)) = Some (lastUpcomingHash st, lastHistoryHash st)) ->
  adjacent_distinct (fingerprints (frames (sse_run st evs))) = true.
Proof.
  unfold sse_run. induction evs as [|ev r IH]; intros st Henc Hd Hl; [exact Hd|]. simpl.
  simpl in Henc. apply andb_prop in Henc as [He Hr].
  destruct (sse_step_inv st ev He Hd Hl) as [Hd' Hl']. apply IH; assumption.
Qed.

(** X23: while every tick reads lists that encode as JSON, the update
    frames a stream writes never repeat the previous frame's pair of
    fingerprints: a frame is written only when a list changed since the
    last one written. *)
Theorem StreamPosts_no_repeated_update (connectedOk : bool) (up hist : result (list Post)) (evs : list SSEEvent)
  (Henc : forallb tick_encodes evs = true) :
  adjacent_distinct (fingerprints (frames (sse_run (StreamPosts_start connectedOk up hist) evs))) = true.
Proof.
  apply sse_run_inv; [exact Henc| |].
  - unfold StreamPosts_start. destruct connectedOk; [|reflexivity].
    destruct (snapshot_ok _ _); reflexivity.
  - unfold StreamPosts_start. destruct connectedOk; [|discriminate]. intros _.
    destruct (snapshot_ok _ _); simpl; auto.
Qed.

Lemma StreamPosts_no_repeated_update_witness :
  forallb tick_encodes [EvTick (Ok [post_scheduled]) (Ok []) true; EvKeepalive true;
                        EvTick (Ok []) (Ok [post_scheduled]) true] = true /\
  adjacent_distinct (fingerprints (frames (sse_run (StreamPosts_start true (Ok [post_scheduled]) (Ok []))
    [EvTick (Ok [post_scheduled]) (Ok []) true; EvKeepalive true;
     EvTick (Ok []) (Ok [post_scheduled]) true]))) = true.
Proof.
  assert (H : forallb tick_encodes [EvTick (Ok [post_scheduled]) (Ok []) true; EvKeepalive true;
                                    EvTick (Ok []) (Ok [post_scheduled]) true] = true)
    by (vm_compute; reflexivity).
  split; [exact H|]. exact (StreamPosts_no_repeated_update true (Ok [post_scheduled]) (Ok []) _ H).
Defined.

